(** * The constrained Markov-chain route generator ([src/markov_chain.py])

    A shallow embedding of [ClimbGenerator]: training ([add_climb],
    [_add_to_distribution], [train_on_data]) and generation
    ([_select_from_distribution], [_is_valid_transition], [generate_climb]),
    followed by the properties of the specification that concern them.

    Modelling conventions.
    - A hold state is the Python tuple [(x, y, role)] of integers; the dicts
      [{"x": .., "y": .., "role": ..}] of a climb carry the same three fields
      and are represented by the same triple.
    - A distribution entry is the tuple [(x, y, role, prob)].  The weight is a
      Python float; it is modelled by an exact rational ([Q], compared with
      [==]), so every statement about weights is a statement about the
      arithmetic the floats approximate.
    - Distances are only ever compared with the integer constants 8 and 50.
      For integer coordinates [8 <= sqrt d2 <= 50] is [64 <= d2 <= 2500] and
      [sqrt d2 > 50] is [d2 > 2500]; the embedding compares the squared
      distance [d2], an integer.
    - The two tables of the generator are [defaultdict]s: reading a missing
      key stores the default value under that key.  Reads are therefore
      modelled as state transformers.
    - [np.random.random()] is the next element of a stream [rnd : nat -> Q];
      the generation state counts the draws consumed. *)

From Stdlib Require Import QArith Qfield Lqa.
From stdpp Require Import gmap strings list fin_maps.

Local Open Scope Z_scope.

(** ** Data model *)

Definition Hold : Type := Z * Z * Z.
Definition Entry : Type := Z * Z * Z * Q.

Definition hold_x (h : Hold) : Z := h.1.1.
Definition hold_y (h : Hold) : Z := h.1.2.
Definition hold_role (h : Hold) : Z := h.2.

Definition entry_state (e : Entry) : Hold := e.1.
Definition entry_prob (e : Entry) : Q := e.2.

(** The states listed by a distribution, in stored order. *)
Definition states (distribution : list Entry) : list Hold :=
  entry_state <$> distribution.

Record ClimbGenerator : Type := mkClimbGenerator {
  transitions : gmap string (gmap Hold (list Entry));
  start_positions : gmap string (list Entry);
  difficulties : list string
}.

(** [ClimbGenerator.__init__] *)
Definition init : ClimbGenerator :=
  {| transitions := ∅; start_positions := ∅; difficulties := [] |}.

Definition FOOTHOLD_ROLE : Z := 8.
Definition FOOTHOLD_MAX_Y : Z := 32.
Definition START_ROLE : Z := 5.
Definition FINISH_ROLE : Z := 7.
Definition MAX_WINGSPAN : Z := 50.

(** ** Exceptions and state *)

Inductive exn : Type :=
  | IndexError
  | KeyError
  | ValueError
  | ZeroDivisionError.

Inductive outcome (A : Type) : Type :=
  | Returned (a : A)
  | Raised (e : exn).
Arguments Returned {A} a.
Arguments Raised {A} e.

(** A computation over a mutable state [S] that returns or raises; the state
    reached when an exception is raised is kept, as in Python. *)
Definition M (S A : Type) : Type := S → S * outcome A.

Definition ret {S A} (a : A) : M S A := λ s, (s, Returned a).
Definition raise {S A} (e : exn) : M S A := λ s, (s, Raised e).
Definition bind {S A B} (c : M S A) (k : A → M S B) : M S B :=
  λ s, match c s with
       | (s', Returned a) => k a s'
       | (s', Raised e) => (s', Raised e)
       end.
Definition get {S} : M S S := λ s, (s, Returned s).
Definition modify {S} (f : S → S) : M S unit := λ s, (f s, Returned tt).

Notation "'let*' x ':=' c 'in' k" := (bind c (λ x, k))
  (at level 10, x name, c at level 100, k at level 200, only parsing).
Notation "'let*' ' p ':=' c 'in' k" := (bind c (λ x, match x with p => k end))
  (at level 10, p pattern, c at level 100, k at level 200, only parsing).
Notation "'do' c 'then' k" := (bind c (λ _, k))
  (at level 10, c at level 100, k at level 200, only parsing).

(** ** Training *)

(** [sum(prob for _, _, _, prob in distribution)] *)
Definition total_weight (distribution : list Entry) : Q :=
  fold_left (λ acc e, (acc + entry_prob e)%Q) distribution 0%Q.

(** The [for ... else] loop of [_add_to_distribution]: the first entry equal
    to [state] gets its stored weight increased by one ([Some] of the updated
    list); [None] when the loop ends without [break]. *)
Fixpoint increment_existing (distribution : list Entry) (state : Hold)
  : option (list Entry) :=
  match distribution with
  | [] => None
  | e :: rest =>
      if decide (entry_state e = state)
      then Some ((entry_state e, (entry_prob e + 1)%Q) :: rest)
      else cons e <$> increment_existing rest state
  end.

(** The list after the first loop (increment or append). *)
Definition observe_state (distribution : list Entry) (state : Hold) : list Entry :=
  match increment_existing distribution state with
  | Some d => d
  | None => distribution ++ [(state, 1%Q)]
  end.

(** [ClimbGenerator._add_to_distribution].  The list is mutated in place; the
    result is the list after the call, with the exception if one is raised.
    The list after the first loop is never empty, so a zero total raises at
    the first division, before any entry is rewritten. *)
Definition _add_to_distribution (distribution : list Entry) (state : Hold)
  : list Entry * outcome unit :=
  let d := observe_state distribution state in
  let total := total_weight d in
  if Qeq_bool total 0
  then (d, Raised ZeroDivisionError)
  else ((λ e, (entry_state e, (entry_prob e / total)%Q)) <$> d, Returned tt).

(** [self._add_to_distribution(self.start_positions[difficulty], start)] *)
Definition add_start (difficulty : string) (start : Hold) : M ClimbGenerator unit :=
  λ g,
    let '(d, r) := _add_to_distribution (default [] (start_positions g !! difficulty)) start in
    ({| transitions := transitions g;
        start_positions := <[difficulty := d]> (start_positions g);
        difficulties := difficulties g |}, r).

(** [self._add_to_distribution(self.transitions[difficulty][current], next_hold)] *)
Definition add_transition (difficulty : string) (current next_hold : Hold)
  : M ClimbGenerator unit :=
  λ g,
    let inner := default ∅ (transitions g !! difficulty) in
    let '(d, r) := _add_to_distribution (default [] (inner !! current)) next_hold in
    ({| transitions := <[difficulty := <[current := d]> inner]> (transitions g);
        start_positions := start_positions g;
        difficulties := difficulties g |}, r).

(** [for i in range(len(moves) - 1)]: one insertion per consecutive pair. *)
Fixpoint add_transitions (difficulty : string) (moves : list Hold)
  : M ClimbGenerator unit :=
  match moves with
  | current :: ((next_hold :: _) as rest) =>
      do add_transition difficulty current next_hold then
      add_transitions difficulty rest
  | _ => ret tt
  end.

(** [if difficulty not in self.difficulties: self.difficulties.append(difficulty)] *)
Definition register_difficulty (difficulty : string) : M ClimbGenerator unit :=
  modify (λ g,
    if decide (difficulty ∈ difficulties g) then g
    else {| transitions := transitions g;
            start_positions := start_positions g;
            difficulties := difficulties g ++ [difficulty] |}).

(** [ClimbGenerator.add_climb]; [moves[0]] raises [IndexError] on an empty
    list, after the difficulty has been registered. *)
Definition add_climb (difficulty : string) (moves : list Hold) : M ClimbGenerator unit :=
  do register_difficulty difficulty then
  match moves with
  | [] => raise IndexError
  | start :: _ =>
      do add_start difficulty start then
      add_transitions difficulty moves
  end.

(** A corpus record: a dict that may or may not have the keys ["difficulty"]
    and ["climb"]. *)
Record ClimbData : Type := mkClimbData {
  cd_difficulty : option string;
  cd_climb : option (list Hold)
}.

(** [climb_data[key]] *)
Definition subscript {S A} (field : option A) : M S A :=
  match field with
  | Some a => ret a
  | None => raise KeyError
  end.

(** [ClimbGenerator.train_on_data] *)
Fixpoint train_on_data (climbs_data : list ClimbData) : M ClimbGenerator unit :=
  match climbs_data with
  | [] => ret tt
  | climb_data :: rest =>
      let* difficulty := subscript (cd_difficulty climb_data) in
      let* moves := subscript (cd_climb climb_data) in
      do add_climb difficulty moves then
      train_on_data rest
  end.

(** ** Generation *)

(** Squared Euclidean distance between the positions of two holds. *)
Definition distance_sq (hold1 hold2 : Hold) : Z :=
  (hold_x hold1 - hold_x hold2) ^ 2 + (hold_y hold1 - hold_y hold2) ^ 2.

(** [ClimbGenerator._find_paired_hold_distance]: the (squared) distance
    between the holds of [role] when the climb has exactly two of them. *)
Definition _find_paired_hold_distance (climb : list Hold) (role : Z) : option Z :=
  match filter (λ h, hold_role h = role) climb with
  | [h0; h1] => Some (distance_sq h0 h1)
  | _ => None
  end.

(** [if distance and distance > self.MAX_WINGSPAN] *)
Definition exceeds_wingspan (distance : option Z) : bool :=
  match distance with
  | Some d2 => negb (d2 =? 0) && (MAX_WINGSPAN ^ 2 <? d2)
  | None => false
  end.

(** [ClimbGenerator._is_valid_paired_holds] *)
Definition _is_valid_paired_holds (climb : list Hold) (new_hold : Hold) : bool :=
  let temp_climb := climb ++ [new_hold] in
  if (hold_role new_hold =? START_ROLE)
     && exceeds_wingspan (_find_paired_hold_distance temp_climb START_ROLE)
  then false
  else if (hold_role new_hold =? FINISH_ROLE)
     && exceeds_wingspan (_find_paired_hold_distance temp_climb FINISH_ROLE)
  then false
  else true.

(** [role_counts[role]] on a [defaultdict(int)]. *)
Definition count_of (role_counts : gmap Z Z) (role : Z) : Z :=
  default 0 (role_counts !! role).

(** [role_counts[role] += 1] *)
Definition count_incr (role_counts : gmap Z Z) (role : Z) : gmap Z Z :=
  <[role := count_of role_counts role + 1]> role_counts.

(** [current_climb[-1]['y'] if current_climb else 0] *)
Definition current_y_of (current_climb : list Hold) : Z :=
  match last current_climb with
  | Some h => hold_y h
  | None => 0
  end.

(** The body of the filtering loop of [_select_from_distribution]: [true]
    when the entry reaches [valid_holds.append]. *)
Definition passes_constraints (current_climb : list Hold) (role_counts : gmap Z Z)
    (e : Entry) : bool :=
  let '(x, y, role, _) := e in
  if y <? current_y_of current_climb - 8 then false
  else if (role =? FOOTHOLD_ROLE) && (FOOTHOLD_MAX_Y <? y) then false
  else if (role =? START_ROLE) && (2 <=? count_of role_counts role) then false
  else if (role =? FINISH_ROLE) && (2 <=? count_of role_counts role) then false
  else if negb (_is_valid_paired_holds current_climb (x, y, role)) then false
  else true.

(** The roulette loop: the first entry whose cumulative weight reaches [r]. *)
Fixpoint roulette (r cumsum : Q) (valid_holds : list Entry) : option Hold :=
  match valid_holds with
  | [] => None
  | e :: rest =>
      let cumsum := (cumsum + entry_prob e)%Q in
      if Qle_bool r cumsum then Some (entry_state e) else roulette r cumsum rest
  end.

(** The state of a generation session: the trained generator and the number
    of random draws consumed so far. *)
Record Session : Type := mkSession {
  model : ClimbGenerator;
  draws : nat
}.

Section Generation.

(** The values [np.random.random()] returns, in order. *)
Variable rnd : nat → Q.

Definition np_random : M Session Q :=
  λ s, ({| model := model s; draws := S (draws s) |}, Returned (rnd (draws s))).

(** [ClimbGenerator._select_from_distribution] *)
Definition _select_from_distribution (distribution : list Entry)
    (current_climb : list Hold) (role_counts : gmap Z Z) : M Session (option Hold) :=
  match distribution with
  | [] => ret None
  | _ =>
      let valid_holds := filter (λ e, passes_constraints current_climb role_counts e = true)
                                distribution in
      match last valid_holds with
      | None => ret None
      | Some last_valid =>
          let total_prob := total_weight valid_holds in
          if Qeq_bool total_prob 0 then ret None
          else
            let* u := np_random in
            let r := (u * total_prob)%Q in
            match roulette r 0 valid_holds with
            | Some h => ret (Some h)
            | None => ret (Some (entry_state last_valid))
            end
      end
  end.

(** [ClimbGenerator._is_valid_transition] *)
Definition _is_valid_transition (current next_hold : Hold) : bool :=
  let '(x1, y1, _) := current in
  let '(x2, y2, _) := next_hold in
  let distance2 := (x2 - x1) ^ 2 + (y2 - y1) ^ 2 in
  let MAX_REACH := 50 in
  let MIN_REACH := 8 in
  let MAX_Y_CHANGE := 40 in
  if negb ((MIN_REACH ^ 2 <=? distance2) && (distance2 <=? MAX_REACH ^ 2)) then false
  else
    let y_change := y2 - y1 in
    if MAX_Y_CHANGE <? Z.abs y_change then false
    else true.

(** [self.start_positions[difficulty]] on the [defaultdict(list)]. *)
Definition read_start_positions (difficulty : string) : M Session (list Entry) :=
  λ s,
    let g := model s in
    let d := default [] (start_positions g !! difficulty) in
    ({| model := {| transitions := transitions g;
                    start_positions := <[difficulty := d]> (start_positions g);
                    difficulties := difficulties g |};
        draws := draws s |}, Returned d).

(** [self.transitions[difficulty][current]] on the nested [defaultdict]s. *)
Definition read_transitions (difficulty : string) (current : Hold)
  : M Session (list Entry) :=
  λ s,
    let g := model s in
    let inner := default ∅ (transitions g !! difficulty) in
    let d := default [] (inner !! current) in
    ({| model := {| transitions := <[difficulty := <[current := d]> inner]> (transitions g);
                    start_positions := start_positions g;
                    difficulties := difficulties g |};
        draws := draws s |}, Returned d).

(** The early-exit test of the move loop. *)
Definition may_finish (min_moves : Z) (climb : list Hold) (role_counts : gmap Z Z) : bool :=
  (min_moves <=? Z.of_nat (length climb))
  && (1 <=? count_of role_counts START_ROLE) && (count_of role_counts START_ROLE <=? 2)
  && (1 <=? count_of role_counts FINISH_ROLE).

(** The final validation of an attempt. *)
Definition is_complete (min_moves max_moves : Z) (climb : list Hold)
    (role_counts : gmap Z Z) : bool :=
  (min_moves <=? Z.of_nat (length climb)) && (Z.of_nat (length climb) <=? max_moves)
  && (1 <=? count_of role_counts START_ROLE) && (count_of role_counts START_ROLE <=? 2)
  && (1 <=? count_of role_counts FINISH_ROLE) && (count_of role_counts FINISH_ROLE <=? 2).

(** [for _ in range(max_moves - 1)]: the move loop of one attempt, with
    [remaining] iterations left; returns the attempt's [climb] and
    [role_counts] when the loop ends. *)
Fixpoint generate_moves (remaining : nat) (difficulty : string) (min_moves : Z)
    (current : Hold) (climb : list Hold) (role_counts : gmap Z Z)
  : M Session (list Hold * gmap Z Z) :=
  match remaining with
  | O => ret (climb, role_counts)
  | S remaining =>
      let* distribution := read_transitions difficulty current in
      let* next_hold := _select_from_distribution distribution climb role_counts in
      match next_hold with
      | None => ret (climb, role_counts)
      | Some next_hold =>
          if negb (_is_valid_transition current next_hold) then ret (climb, role_counts)
          else
            let climb := climb ++ [next_hold] in
            let role_counts := count_incr role_counts (hold_role next_hold) in
            let current := next_hold in
            if may_finish min_moves climb role_counts then ret (climb, role_counts)
            else generate_moves remaining difficulty min_moves current climb role_counts
      end
  end.

(** The optional second start hold (lines 197-205). *)
Definition second_start_hold (difficulty : string) (start : Hold)
    (climb : list Hold) (role_counts : gmap Z Z) : M Session (list Hold * gmap Z Z) :=
  let* u := np_random in
  if negb (Qle_bool (3 # 10) u) then
    let* distribution := read_transitions difficulty start in
    let* second_start := _select_from_distribution distribution climb role_counts in
    match second_start with
    | Some second_start =>
        if hold_role second_start =? START_ROLE
        then ret (climb ++ [second_start], count_incr role_counts (hold_role second_start))
        else ret (climb, role_counts)
    | None => ret (climb, role_counts)
    end
  else ret (climb, role_counts).

(** [for _ in range(max_attempts)] *)
Fixpoint attempts (remaining : nat) (difficulty : string) (min_moves max_moves : Z)
  : M Session (option (list Hold)) :=
  match remaining with
  | O => ret None
  | S remaining =>
      let climb := [] in
      let role_counts := ∅ in
      let* distribution := read_start_positions difficulty in
      let* start := _select_from_distribution distribution climb role_counts in
      match start with
      | None => attempts remaining difficulty min_moves max_moves
      | Some start =>
          let climb := climb ++ [start] in
          let role_counts := count_incr role_counts (hold_role start) in
          let* '(climb, role_counts) := second_start_hold difficulty start climb role_counts in
          let current := start in
          let* '(climb, role_counts) :=
            generate_moves (Z.to_nat (max_moves - 1)) difficulty min_moves
                           current climb role_counts in
          if is_complete min_moves max_moves climb role_counts then ret (Some climb)
          else attempts remaining difficulty min_moves max_moves
      end
  end.

(** [ClimbGenerator.generate_climb] *)
Definition generate_climb (difficulty : string) (min_moves max_moves max_attempts : Z)
  : M Session (option (list Hold)) :=
  let* s := get in
  if decide (difficulty ∈ difficulties (model s))
  then attempts (Z.to_nat max_attempts) difficulty min_moves max_moves
  else raise ValueError.

End Generation.

(** * Vocabulary of the properties *)

(** ** Running computations *)

(** [post c s Q]: running [c] from [s] ends in a state and an outcome that
    satisfy [Q]. *)
Definition post {S A} (c : M S A) (s : S) (Q : S → outcome A → Prop) : Prop :=
  Q (c s).1 (c s).2.

(** The outcome of running a computation from a state. *)
Definition outcome_of {S A} (c : M S A) (s : S) : outcome A := (c s).2.
Definition state_after {S A} (c : M S A) (s : S) : S := (c s).1.

(** ** Distributions and the trained model *)

(** Insertion of a sequence of observed states, one [_add_to_distribution]
    call after the other on the same list. *)
Fixpoint insert_all (distribution : list Entry) (observed : list Hold)
  : list Entry * outcome unit :=
  match observed with
  | [] => (distribution, Returned tt)
  | state :: rest =>
      match _add_to_distribution distribution state with
      | (d, Returned _) => insert_all d rest
      | (d, Raised e) => (d, Raised e)
      end
  end.

(** What every stored distribution satisfies: distinct states, positive
    weights, and total weight one unless the list is empty. *)
Record normalized (distribution : list Entry) : Prop := mkNormalized {
  normalized_nodup : NoDup (states distribution);
  normalized_pos : Forall (λ e, (0 < entry_prob e)%Q) distribution;
  normalized_total : distribution = [] ∨ (total_weight distribution == 1)%Q
}.

(** Every distribution stored in the generator is normalized. *)
Definition model_normalized (g : ClimbGenerator) : Prop :=
  (∀ difficulty dist, start_positions g !! difficulty = Some dist → normalized dist)
  ∧ (∀ difficulty inner current dist,
       transitions g !! difficulty = Some inner → inner !! current = Some dist →
       normalized dist).

(** The model obtained by training the fresh generator on a corpus. *)
Definition trained (climbs_data : list ClimbData) : ClimbGenerator :=
  (train_on_data climbs_data init).1.

(** The stored weight of a state in a distribution (0 when it is absent). *)
Definition weight_of (distribution : list Entry) (state : Hold) : Q :=
  match list_find (λ e, entry_state e = state) distribution with
  | Some (_, e) => entry_prob e
  | None => 0%Q
  end.

(** [difficulty]'s start distribution, and its transition distribution for
    [current], as a read of the generator's tables returns them. *)
Definition start_at (g : ClimbGenerator) (difficulty : string) : list Entry :=
  default [] (start_positions g !! difficulty).

Definition dist_at (g : ClimbGenerator) (difficulty : string) (current : Hold)
  : list Entry :=
  default [] (default ∅ (transitions g !! difficulty) !! current).

(** [g'] answers every read as [g] does and keeps every entry of [g]; it may
    have further keys, which then hold the empty default. *)
Record same_reads (g g' : ClimbGenerator) : Prop := mkSameReads {
  same_difficulties : difficulties g' = difficulties g;
  same_start_at : ∀ difficulty, start_at g' difficulty = start_at g difficulty;
  same_dist_at : ∀ difficulty current,
      dist_at g' difficulty current = dist_at g difficulty current;
  kept_start_positions : start_positions g ⊆ start_positions g';
  kept_transitions : ∀ difficulty inner,
      transitions g !! difficulty = Some inner →
      ∃ inner', transitions g' !! difficulty = Some inner' ∧ inner ⊆ inner'
}.

(** ** Corpus records *)

(** A record with both fields present. *)
Definition route (difficulty : string) (moves : list Hold) : ClimbData :=
  {| cd_difficulty := Some difficulty; cd_climb := Some moves |}.

(** A corpus record that lacks a field, or whose climb has no hold. *)
Definition malformed (c : ClimbData) : Prop :=
  cd_difficulty c = None ∨ cd_climb c = None ∨ cd_climb c = Some [].

(** The exception such a record makes [train_on_data] raise. *)
Definition malformed_exception (c : ClimbData) : exn :=
  match cd_difficulty c, cd_climb c with
  | Some _, Some _ => IndexError
  | _, _ => KeyError
  end.

(** ** Routes *)

(** The number of holds of [role] in a climb. *)
Definition role_count (role : Z) (climb : list Hold) : Z :=
  Z.of_nat (length (filter (λ h, hold_role h = role) climb)).

(** The tally kept by an attempt agrees with the route it has built. *)
Definition counts_agree (role_counts : gmap Z Z) (climb : list Hold) : Prop :=
  ∀ role, count_of role_counts role = role_count role climb.

(** [chain R current rest]: every hold of [rest] is related by [R] to its
    predecessor, the predecessor of the first one being [current]. *)
Fixpoint chain (R : Hold → Hold → Prop) (current : Hold) (rest : list Hold) : Prop :=
  match rest with
  | [] => True
  | h :: rest => R current h ∧ chain R h rest
  end.

(** One iteration of the move loop that appends: the hold is listed by the
    table entry of [current] and passes the validator against [current]. *)
Definition sampled_step (g : ClimbGenerator) (difficulty : string) (current h : Hold) : Prop :=
  h ∈ states (dist_at g difficulty current) ∧ _is_valid_transition current h = true.

(** The bounds checked by the final validation, on the route itself. *)
Definition complete_route (min_moves max_moves : Z) (climb : list Hold) : Prop :=
  min_moves ≤ Z.of_nat (length climb) ≤ max_moves
  ∧ 1 ≤ role_count START_ROLE climb ≤ 2
  ∧ 1 ≤ role_count FINISH_ROLE climb ≤ 2.

(** How an attempt builds a route: the start hold, at most one second start
    hold, then the holds appended by the move loop, whose first predecessor
    is the start hold. *)
Definition route_shape (g : ClimbGenerator) (difficulty : string) (climb : list Hold) : Prop :=
  ∃ start second rest,
    climb = start :: second ++ rest
    ∧ start ∈ states (start_at g difficulty)
    ∧ (second = []
       ∨ ∃ h, second = [h] ∧ hold_role h = START_ROLE
              ∧ h ∈ states (dist_at g difficulty start))
    ∧ chain (sampled_step g difficulty) start rest.

(** The filters of the sampler that look at the role of a candidate: the
    foothold ceiling and the two role-count ceilings. *)
Definition passes_role_filters (role_counts : gmap Z Z) (h : Hold) : Prop :=
  (hold_role h = FOOTHOLD_ROLE → hold_y h ≤ FOOTHOLD_MAX_Y)
  ∧ (hold_role h = START_ROLE → count_of role_counts START_ROLE < 2)
  ∧ (hold_role h = FINISH_ROLE → count_of role_counts FINISH_ROLE < 2).

(** Every consecutive pair of a route passes [_is_valid_transition]. *)
Definition consecutive_valid (climb : list Hold) : Prop :=
  match climb with
  | [] => True
  | first :: rest => chain (λ p h, _is_valid_transition p h = true) first rest
  end.

(** ** Concrete data used in the examples *)

Definition V0 : string := "V0".
Definition hA : Hold := (0, 0, 5).
Definition hB : Hold := (4, 0, 5).
Definition hC : Hold := (0, 10, 7).

(** A corpus of two routes from the same first hold. *)
Definition two_starts_corpus : list ClimbData :=
  [route V0 [hA; hB]; route V0 [hA; hC]].

(** The random source that always returns 0. *)
Definition rnd_zero : nat → Q := λ _, 0%Q.

(** A model trained on a single one-hold route. *)
Definition one_hold_corpus : list ClimbData := [route V0 [hA]].

(** ** Further vocabulary: training *)

(** A corpus record with both fields and at least one hold. *)
Definition well_formed (c : ClimbData) : Prop :=
  ∃ difficulty start rest, c = route difficulty (start :: rest).

(** A corpus record whose climb has exactly one hold. *)
Definition single_hold (c : ClimbData) : Prop :=
  ∃ difficulty h, c = route difficulty [h].

(** The difficulty labels of a corpus, in order. *)
Definition labels (climbs_data : list ClimbData) : list string :=
  omap cd_difficulty climbs_data.

(** 1 when the two states are the same, 0 otherwise. *)
Definition indicator (k state : Hold) : Q :=
  if decide (k = state) then 1%Q else 0%Q.


(** A route is recorded by a model when its first hold is listed by the start
    distribution of its difficulty and every hold after the first is listed
    by the transition distribution of the hold before it. *)
Definition recorded (g : ClimbGenerator) (difficulty : string) (moves : list Hold) : Prop :=
  (∀ start, head moves = Some start → start ∈ states (start_at g difficulty))
  ∧ (∀ i a b, moves !! i = Some a → moves !! S i = Some b →
              b ∈ states (dist_at g difficulty a)).

(** [g'] lists every state that [g] lists, in every distribution. *)
Definition keeps_states (g g' : ClimbGenerator) : Prop :=
  (∀ difficulty x, x ∈ states (start_at g difficulty) → x ∈ states (start_at g' difficulty))
  ∧ (∀ difficulty current x,
       x ∈ states (dist_at g difficulty current) →
       x ∈ states (dist_at g' difficulty current)).

(** [g'] differs from [g] only in what is stored for [difficulty]. *)
Definition only_touches (difficulty : string) (g g' : ClimbGenerator) : Prop :=
  ∀ other, other ≠ difficulty →
    start_at g' other = start_at g other
    ∧ ∀ current, dist_at g' other current = dist_at g other current.


(** ** Further vocabulary: routes *)

(** No foothold of the climb is above the foothold ceiling. *)
Definition footholds_capped (climb : list Hold) : Prop :=
  Forall (λ h, hold_role h = FOOTHOLD_ROLE → hold_y h ≤ FOOTHOLD_MAX_Y) climb.

(** The first hold is at height -8 or more, and no hold is more than 8 units
    below the hold right before it in the climb. *)
Definition no_big_drop (climb : list Hold) : Prop :=
  (∀ h, head climb = Some h → -8 ≤ hold_y h)
  ∧ (∀ i p h, climb !! i = Some p → climb !! S i = Some h → hold_y p - 8 ≤ hold_y h).

(** If the climb has exactly two holds of [role], they are within the
    wingspan of each other. *)
Definition pair_within_wingspan (role : Z) (climb : list Hold) : Prop :=
  ∀ h0 h1, filter (λ h, hold_role h = role) climb = [h0; h1] →
           distance_sq h0 h1 ≤ MAX_WINGSPAN ^ 2.


(** Some state stored for [difficulty] (in its start distribution or in one
    of its transition distributions) has role [role]. *)
Definition stores_role (g : ClimbGenerator) (difficulty : string) (role : Z) : Prop :=
  ∃ h, hold_role h = role
       ∧ (h ∈ states (start_at g difficulty)
          ∨ ∃ current, h ∈ states (dist_at g difficulty current)).


(** ** Further vocabulary: sessions *)

(** Two models answer every read alike. *)
Definition reads_equal (g g' : ClimbGenerator) : Prop :=
  difficulties g = difficulties g'
  ∧ (∀ difficulty, start_at g difficulty = start_at g' difficulty)
  ∧ (∀ difficulty current, dist_at g difficulty current = dist_at g' difficulty current).

(** Two sessions whose models answer every read alike and that have consumed
    the same number of random draws. *)
Definition sessions_agree (s s' : Session) : Prop :=
  reads_equal (model s) (model s') ∧ draws s = draws s'.

(** Run from [s] and from [s'], the computation has the same outcome and
    leaves sessions that agree. *)
Definition agree_on {A} (c : M Session A) (s s' : Session) : Prop :=
  sessions_agree (c s).1 (c s').1 ∧ (c s).2 = (c s').2.


(** * The callers and the sibling generator *)

(** ** [IntegratedClimbGenerator] ([src/generate.py]) *)

(** The exceptions that leave [IntegratedClimbGenerator.generate_climb]
    before the SVG is rendered: the wrapper [Exception("Error generating
    climb: ...")] around an exception of the core generator, the [TypeError]
    of iterating over [None], and the [KeyError] of [ROLE_TO_COLOR]. *)
Inductive integrated_exn : Type :=
  | ErrorGeneratingClimb (e : exn)
  | TypeError
  | RoleKeyError (role : Z).

(** [IntegratedClimbGenerator.ROLE_TO_COLOR] *)
Definition ROLE_TO_COLOR : gmap Z string :=
  {[ 5 := "green"; 6 := "blue"; 7 := "red"; 8 := "pink" ]}.

(** A point handed to the SVG generator: [{"x": .., "y": .., "color": ..}]. *)
Definition Point : Type := Z * Z * string.

(** The list comprehension that builds [svg_points] from a list of moves;
    the first move whose role is not a key of [ROLE_TO_COLOR] raises. *)
Fixpoint svg_points (moves : list Hold) : integrated_exn + list Point :=
  match moves with
  | [] => inr []
  | move :: rest =>
      match ROLE_TO_COLOR !! hold_role move with
      | None => inl (RoleKeyError (hold_role move))
      | Some color =>
          match svg_points rest with
          | inl e => inl e
          | inr points => inr ((hold_x move, hold_y move, color) :: points)
          end
      end
  end.

(** [IntegratedClimbGenerator.generate_climb] up to and including the
    construction of [svg_points] (lines 48-63): the call of the core
    generator with its default bounds, whose exceptions are wrapped, and the
    comprehension over its result. *)
Definition integrated_svg_points (rnd : nat → Q) (difficulty : string) (s : Session)
  : Session * (integrated_exn + (list Hold * list Point)) :=
  match generate_climb rnd difficulty 8 20 100 s with
  | (s', Raised e) => (s', inl (ErrorGeneratingClimb e))
  | (s', Returned None) => (s', inl TypeError)
  | (s', Returned (Some moves)) =>
      match svg_points moves with
      | inl e => (s', inl e)
      | inr points => (s', inr (moves, points))
      end
  end.

(** [p] is the point drawn for the hold [h]. *)
Definition point_of (h : Hold) (p : Point) : Prop :=
  p.1.1 = hold_x h ∧ p.1.2 = hold_y h ∧ ROLE_TO_COLOR !! hold_role h = Some p.2.

(** ** [ClimbingConstraints] ([src/pattern_recognition.py]) *)

Module ClimbingConstraints.

Definition MIN_X : Z := -64.
Definition MAX_X : Z := 64.
Definition MIN_Y : Z := 4.
Definition MAX_Y : Z := 140.
Definition GRID_SIZE : Z := 8.
Definition Y_OFFSET : Z := 4.
Definition MAX_ROLE57_SPACING : Z := 32.
Definition MAX_ROLE57_Y_DIFF : Z := 32.
Definition R5_MIN_Y : Z := 30.
Definition R5_MAX_Y : Z := 70.

(** [list(range(start, stop, step))] for a positive [step]. *)
Definition py_range (start stop step : Z) : list Z :=
  (λ i, start + step * Z.of_nat i) <$> seq 0 (Z.to_nat ((stop - start + step - 1) / step)).

Definition valid_x (x : Z) : bool :=
  (x mod GRID_SIZE =? 0) && ((MIN_X <=? x) && (x <=? MAX_X)).

Definition valid_y (y : Z) : bool :=
  (y mod GRID_SIZE =? Y_OFFSET) && ((MIN_Y <=? y) && (y <=? MAX_Y)).

Definition valid_r5_y (y : Z) : bool :=
  valid_y y && ((R5_MIN_Y <=? y) && (y <=? R5_MAX_Y)).

Definition get_valid_x_coordinates : list Z :=
  py_range MIN_X (MAX_X + 1) GRID_SIZE.

Definition get_valid_y_coordinates : list Z :=
  let start_y := MIN_Y in
  let start_y :=
    if negb (start_y mod GRID_SIZE =? Y_OFFSET)
    then ((start_y / GRID_SIZE) * GRID_SIZE) + Y_OFFSET
    else start_y in
  py_range start_y (MAX_Y + 1) GRID_SIZE.

Definition get_valid_r5_y_coordinates : list Z :=
  filter (λ y, R5_MIN_Y ≤ y ≤ R5_MAX_Y) get_valid_y_coordinates.

(** The inner loop of [get_nearby_coordinates] for one [new_x]. *)
Definition nearby_in_column (x y : Z) (used_coords : gset (Z * Z)) (valid_y : list Z)
    (new_x : Z) : list (Z * Z) :=
  if MAX_ROLE57_SPACING <? Z.abs (new_x - x) then []
  else
    omap (λ new_y,
            if MAX_ROLE57_Y_DIFF <? Z.abs (new_y - y) then None
            else if decide ((new_x, new_y) ∉ used_coords) then Some (new_x, new_y)
            else None)
         valid_y.

Definition get_nearby_coordinates (x y : Z) (used_coords : gset (Z * Z))
    (for_role : option Z) : list (Z * Z) :=
  let valid_x := get_valid_x_coordinates in
  let valid_y :=
    if decide (for_role = Some 5) then get_valid_r5_y_coordinates
    else get_valid_y_coordinates in
  valid_x ≫= nearby_in_column x y used_coords valid_y.

End ClimbingConstraints.

(** * Properties *)

(** ** Reasoning about computations *)

Lemma post_ret {S A} (a : A) (s : S) Q : Q s (Returned a) → post (ret a) s Q.
Proof. done. Qed.

Lemma post_bind {S A B} (c : M S A) (k : A → M S B) s Q :
  post c s (λ s' r, match r with
                    | Returned a => post (k a) s' Q
                    | Raised e => Q s' (Raised e)
                    end) →
  post (bind c k) s Q.
Proof. unfold post, bind. by destruct (c s) as [s' [a|e]]. Qed.

Lemma post_mono {S A} (c : M S A) s (Q Q' : S → outcome A → Prop) :
  post c s Q → (∀ s' r, Q s' r → Q' s' r) → post c s Q'.
Proof. unfold post. auto. Qed.

Lemma post_run {S A} (c : M S A) s s' r Q :
  post c s Q → c s = (s', r) → Q s' r.
Proof. unfold post. intros H E. by rewrite E in H. Qed.

(** ** Weighted distributions *)

Lemma total_weight_from d a :
  (fold_left (λ acc e, acc + entry_prob e) d a == a + total_weight d)%Q.
Proof.
  unfold total_weight. revert a. induction d as [|e d IH]; intros a; simpl.
  - ring.
  - rewrite (IH (a + entry_prob e)%Q), (IH (0 + entry_prob e)%Q). ring.
Qed.

Lemma total_weight_cons e d :
  (total_weight (e :: d) == entry_prob e + total_weight d)%Q.
Proof.
  unfold total_weight at 1. simpl. rewrite total_weight_from. ring.
Qed.

Lemma total_weight_app d1 d2 :
  (total_weight (d1 ++ d2) == total_weight d1 + total_weight d2)%Q.
Proof.
  induction d1 as [|e d1 IH].
  - simpl. change (total_weight []) with 0%Q. ring.
  - rewrite <- app_comm_cons, !total_weight_cons, IH. ring.
Qed.

Lemma total_weight_nonneg d :
  Forall (λ e, (0 < entry_prob e)%Q) d → (0 <= total_weight d)%Q.
Proof.
  induction 1 as [|e d He _ IH]; [apply Qle_refl|].
  rewrite total_weight_cons. apply Qlt_le_weak in He.
  replace 0%Q with (0 + 0)%Q by reflexivity. by apply Qplus_le_compat.
Qed.

Lemma increment_existing_None d state :
  increment_existing d state = None ↔ state ∉ states d.
Proof.
  induction d as [|e d IH]; simpl.
  - split; [intros _; apply not_elem_of_nil | done].
  - destruct (decide (entry_state e = state)) as [Heq|Hne].
    + split; [done|]. intros H. exfalso. apply H. rewrite <- Heq. left.
    + rewrite not_elem_of_cons. destruct (increment_existing d state); simpl.
      * split; [done|]. intros [_ H]. by apply IH in H.
      * split; [|done]. intros _. split; [done|]. by apply IH.
Qed.

Lemma increment_existing_Some d state d' :
  increment_existing d state = Some d' →
  states d' = states d
  ∧ (total_weight d' == total_weight d + 1)%Q
  ∧ (Forall (λ e, (0 < entry_prob e)%Q) d → Forall (λ e, (0 < entry_prob e)%Q) d').
Proof.
  revert d'. induction d as [|e d IH]; intros d'; simpl; [done|].
  destruct (decide (entry_state e = state)) as [Heq|Hne].
  - intros [= <-]. simpl. split; [done|].
    split; [rewrite !total_weight_cons; unfold entry_prob; simpl; ring|].
    intros Hpos. inversion Hpos as [|? ? He Hd]; subst. constructor; [|done].
    unfold entry_prob in *; simpl. apply Qlt_trans with (1 := He).
    rewrite <- (Qplus_0_r e.2) at 1. by apply Qplus_lt_r.
  - destruct (increment_existing d state) as [d0|] eqn:E; simpl; [|done].
    intros [= <-]. destruct (IH d0 eq_refl) as (Hst & Htot & Hpos).
    simpl. split; [unfold states in *; simpl; by f_equal|].
    split; [rewrite !total_weight_cons, Htot; ring|].
    intros H. inversion H; subst. constructor; auto.
Qed.

Lemma observe_state_spec d state :
  (total_weight (observe_state d state) == total_weight d + 1)%Q
  ∧ (NoDup (states d) → NoDup (states (observe_state d state)))
  ∧ (Forall (λ e, (0 < entry_prob e)%Q) d →
     Forall (λ e, (0 < entry_prob e)%Q) (observe_state d state))
  ∧ state ∈ states (observe_state d state).
Proof.
  unfold observe_state. destruct (increment_existing d state) as [d'|] eqn:E.
  - destruct (increment_existing_Some _ _ _ E) as (Hst & Htot & Hpos).
    rewrite Hst. repeat split; try done.
    destruct (decide (state ∈ states d)) as [Hin|Hnin]; [done|].
    apply increment_existing_None in Hnin. congruence.
  - apply increment_existing_None in E. repeat split.
    + rewrite total_weight_app, total_weight_cons. change (total_weight []) with 0%Q.
      unfold entry_prob; simpl. ring.
    + intros Hnd. unfold states. rewrite fmap_app. simpl.
      apply NoDup_app. split; [done|]. split; [|apply NoDup_singleton].
      intros h Hh ->%list_elem_of_singleton. unfold entry_state in *; simpl in *. done.
    + intros Hpos. apply Forall_app. split; [done|]. by repeat constructor.
    + unfold states. rewrite fmap_app. apply elem_of_app. right. left.
Qed.

Lemma total_weight_scaled d t :
  (total_weight ((λ e, (entry_state e, (entry_prob e / t)%Q)) <$> d)
   == total_weight d / t)%Q.
Proof.
  induction d as [|e d IH].
  - simpl. change (total_weight []) with 0%Q. unfold Qdiv. ring.
  - rewrite fmap_cons, !total_weight_cons, IH. unfold entry_prob; simpl. unfold Qdiv. ring.
Qed.

Lemma states_scaled d t :
  states ((λ e, (entry_state e, (entry_prob e / t)%Q)) <$> d) = states d.
Proof. unfold states. rewrite <- list_fmap_compose. by apply list_fmap_ext. Qed.

(** One insertion into a normalized distribution returns normally and leaves
    it normalized, non-empty and listing the inserted state. *)
Lemma _add_to_distribution_normalized d state :
  normalized d →
  ∃ d', _add_to_distribution d state = (d', Returned tt)
        ∧ normalized d' ∧ state ∈ states d' ∧ (total_weight d' == 1)%Q.
Proof.
  intros [Hnd Hpos Htot].
  destruct (observe_state_spec d state) as (Hsum & Hnd' & Hpos' & Hin).
  specialize (Hnd' Hnd). specialize (Hpos' Hpos).
  assert (Hgt : (0 < total_weight (observe_state d state))%Q).
  { rewrite Hsum. pose proof (total_weight_nonneg d Hpos). lra. }
  unfold _add_to_distribution.
  destruct (Qeq_bool (total_weight (observe_state d state)) 0) eqn:Ez.
  { apply Qeq_bool_iff in Ez. rewrite Ez in Hgt. by apply Qlt_irrefl in Hgt. }
  eexists. split; [done|].
  assert (Hone : (total_weight ((λ e, (entry_state e, (entry_prob e / total_weight (observe_state d state))%Q))
                    <$> observe_state d state) == 1)%Q).
  { rewrite total_weight_scaled. field. intros Hz. rewrite Hz in Hgt. by apply Qlt_irrefl in Hgt. }
  split; [|split]; [|by rewrite states_scaled|done].
  constructor.
  - by rewrite states_scaled.
  - apply Forall_fmap. eapply Forall_impl; [exact Hpos'|].
    intros e He. unfold entry_prob in *; simpl. apply Qlt_shift_div_l; [done|]. lra.
  - by right.
Qed.

Lemma normalized_nil : normalized [].
Proof. constructor; [apply NoDup_nil_2 | constructor | by left]. Qed.

Lemma insert_all_normalized observed d :
  normalized d →
  ∃ d', insert_all d observed = (d', Returned tt) ∧ normalized d'
        ∧ ((total_weight d == 1)%Q ∨ observed ≠ [] → (total_weight d' == 1)%Q).
Proof.
  revert d. induction observed as [|h rest IH]; intros d Hd; simpl.
  - exists d. split; [done|]. split; [done|]. by intros [H|H].
  - destruct (_add_to_distribution_normalized d h Hd) as (d1 & -> & Hd1 & _ & Hone).
    destruct (IH d1 Hd1) as (d' & -> & Hd' & Htot).
    exists d'. auto.
Qed.

(** ** The trained model *)

Lemma model_normalized_init : model_normalized init.
Proof. split; simpl; intros *; by rewrite lookup_empty. Qed.

Lemma model_normalized_start g difficulty :
  model_normalized g → normalized (default [] (start_positions g !! difficulty)).
Proof.
  intros [Hs _]. destruct (start_positions g !! difficulty) eqn:E; simpl; eauto using normalized_nil.
Qed.

Lemma model_normalized_transition g difficulty current :
  model_normalized g →
  normalized (default [] (default ∅ (transitions g !! difficulty) !! current)).
Proof.
  intros [_ Ht]. destruct (transitions g !! difficulty) as [inner|] eqn:E; simpl.
  - destruct (inner !! current) eqn:E'; simpl; eauto using normalized_nil.
  - rewrite lookup_empty. apply normalized_nil.
Qed.

Lemma add_start_normalized difficulty start g :
  model_normalized g →
  post (add_start difficulty start) g (λ g' r, r = Returned tt ∧ model_normalized g').
Proof.
  intros Hg. unfold post, add_start.
  destruct (_add_to_distribution_normalized _ start (model_normalized_start g difficulty Hg))
    as (d' & -> & Hd' & _). simpl. split; [done|].
  destruct Hg as [Hs Ht]. split; simpl; [|done].
  intros d0 dist. rewrite lookup_insert. case_decide; [by intros [= <-]|by apply Hs].
Qed.

Lemma add_transition_normalized difficulty current next_hold g :
  model_normalized g →
  post (add_transition difficulty current next_hold) g
       (λ g' r, r = Returned tt ∧ model_normalized g').
Proof.
  intros Hg. unfold post, add_transition.
  destruct (_add_to_distribution_normalized _ next_hold
              (model_normalized_transition g difficulty current Hg))
    as (d' & -> & Hd' & _). cbv zeta. simpl. split; [done|].
  destruct Hg as [Hs Ht]. split; simpl; [done|].
  intros d0 inner k dist. rewrite lookup_insert. case_decide as Hd0.
  - intros [= <-]. rewrite lookup_insert. case_decide; [by intros [= <-]|].
    destruct (transitions g !! difficulty) as [inner|] eqn:E; simpl.
    + intros. eapply Ht; eauto.
    + by rewrite lookup_empty.
  - intros. eapply Ht; eauto.
Qed.

Lemma add_transitions_normalized difficulty moves g :
  model_normalized g →
  post (add_transitions difficulty moves) g
       (λ g' r, r = Returned tt ∧ model_normalized g').
Proof.
  revert g. induction moves as [|current [|next_hold rest] IH]; intros g Hg; try done.
  cbn [add_transitions]. apply post_bind.
  eapply post_mono; [by apply add_transition_normalized|].
  intros g' r [-> Hg']. by apply IH.
Qed.

Lemma register_difficulty_normalized difficulty g :
  model_normalized g →
  post (register_difficulty difficulty) g (λ g' r, r = Returned tt ∧ model_normalized g').
Proof.
  intros Hg. unfold post, register_difficulty, modify. simpl. split; [done|].
  by case_decide.
Qed.

Lemma add_climb_normalized difficulty moves g :
  model_normalized g →
  post (add_climb difficulty moves) g (λ g' _, model_normalized g').
Proof.
  intros Hg. unfold add_climb. apply post_bind.
  eapply post_mono; [by apply register_difficulty_normalized|].
  intros g1 r [-> Hg1]. destruct moves as [|start rest]; [done|].
  apply post_bind. eapply post_mono; [by apply add_start_normalized|].
  intros g2 r [-> Hg2].
  eapply post_mono; [by apply add_transitions_normalized|]. by intros g3 r [_ Hg3].
Qed.

Lemma train_on_data_normalized climbs_data g :
  model_normalized g →
  post (train_on_data climbs_data) g (λ g' _, model_normalized g').
Proof.
  revert g. induction climbs_data as [|[[difficulty|] [moves|]] rest IH]; intros g Hg;
    try done.
  cbn [train_on_data cd_difficulty cd_climb subscript].
  apply post_bind, post_ret. apply post_bind, post_ret. apply post_bind.
  eapply post_mono; [by apply add_climb_normalized|].
  intros g' [[]|e] Hg'; [by apply IH|done].
Qed.

Lemma trained_model_normalized climbs_data : model_normalized (trained climbs_data).
Proof. apply (train_on_data_normalized climbs_data init), model_normalized_init. Qed.

(** ** C4: normalization and distinctness of distributions *)

(** C4.  Whatever states are inserted, in whatever order, into a fresh
    distribution, every insertion returns normally and the resulting
    distribution is empty or has total weight one, and lists no state
    twice.  (Weights are exact rationals here; the floats of the source
    approximate them.) *)
Theorem C4_insertions_normalized (observed : list Hold) :
  ∃ d, insert_all [] observed = (d, Returned tt)
       ∧ (d = [] ∨ (total_weight d == 1)%Q)
       ∧ NoDup (states d).
Proof.
  destruct (insert_all_normalized observed [] normalized_nil) as (d & Hd & [Hnd _ Htot] & _).
  exists d. done.
Qed.

(** ** C3: order of training *)

(** C3 (fails on the code).  The same three one-hold routes in two orders:
    the increment is applied to the stored, already normalized, weight, so
    the start distribution after [A; B; A] gives [A] weight 3/4 while after
    [A; A; B] it gives [A] weight 1/2. *)
Theorem C3_training_order_changes_weights :
  let corpus1 := [route V0 [hA]; route V0 [hB]; route V0 [hA]] in
  let corpus2 := [route V0 [hA]; route V0 [hA]; route V0 [hB]] in
  corpus1 ≡ₚ corpus2
  ∧ (train_on_data corpus1 init).2 = Returned tt
  ∧ (train_on_data corpus2 init).2 = Returned tt
  ∧ (weight_of (start_at (trained corpus1) V0) hA == 3 # 4)%Q
  ∧ (weight_of (start_at (trained corpus2) V0) hA == 1 # 2)%Q
  ∧ (weight_of (insert_all [] [hA; hB; hA]).1 hA == 3 # 4)%Q
  ∧ (weight_of (insert_all [] [hA; hA; hB]).1 hA == 1 # 2)%Q.
Proof.
  cbv zeta. split.
  - apply perm_skip, perm_swap.
  - repeat split; vm_compute; reflexivity.
Qed.

(** ** C6: routes without holds and records without fields *)

Lemma add_climb_no_holds difficulty g :
  add_climb difficulty [] g = ((register_difficulty difficulty g).1, Raised IndexError).
Proof. done. Qed.

Lemma register_difficulty_tables difficulty g :
  transitions (register_difficulty difficulty g).1 = transitions g
  ∧ start_positions (register_difficulty difficulty g).1 = start_positions g.
Proof. unfold register_difficulty, modify. simpl. by case_decide. Qed.

Lemma train_on_data_app pre rest g g1 :
  train_on_data pre g = (g1, Returned tt) →
  train_on_data (pre ++ rest) g = train_on_data rest g1.
Proof.
  revert g. induction pre as [|[[difficulty|] [moves|]] pre IH]; intros g; simpl;
    try (by intros [= <-]); try done.
  unfold bind, subscript, ret. simpl.
  destruct (add_climb difficulty moves g) as [g' [[]|e]]; [apply IH|done].
Qed.

Lemma train_on_data_malformed bad rest g :
  malformed bad →
  ∃ g', train_on_data (bad :: rest) g = (g', Raised (malformed_exception bad))
        ∧ transitions g' = transitions g ∧ start_positions g' = start_positions g.
Proof.
  destruct bad as [[difficulty|] [moves|]]; unfold malformed, malformed_exception; simpl;
    try (intros _; by exists g).
  intros [?|[?|[= ->]]]; try done.
  exists (register_difficulty difficulty g).1. split; [done|].
  apply register_difficulty_tables.
Qed.

(** C6, as the code has it.  [train_on_data] does not skip a record that
    lacks a field or whose climb has no hold: having trained on the records
    before it, it stops there with the exception ([KeyError] for a missing
    field, [IndexError] for a climb without holds), the records after it are
    not processed, and the record itself adds no start observation and no
    transition (both tables are as the preceding records left them). *)
Theorem C6_malformed_record_stops_training
    (pre post : list ClimbData) (bad : ClimbData) (g g1 : ClimbGenerator) :
  train_on_data pre g = (g1, Returned tt) →
  malformed bad →
  ∃ g2, train_on_data (pre ++ bad :: post) g = (g2, Raised (malformed_exception bad))
        ∧ transitions g2 = transitions g1
        ∧ start_positions g2 = start_positions g1.
Proof.
  intros Hpre Hbad. rewrite (train_on_data_app _ _ _ _ Hpre).
  by apply train_on_data_malformed.
Qed.

Lemma C6_malformed_record_stops_training_witness :
  ∃ g2, train_on_data ([route V0 [hA; hB]] ++ route V0 [] :: [route V0 [hA; hC]]) init
        = (g2, Raised IndexError)
        ∧ transitions g2 = transitions (trained [route V0 [hA; hB]])
        ∧ start_positions g2 = start_positions (trained [route V0 [hA; hB]]).
Proof.
  apply (C6_malformed_record_stops_training
           [route V0 [hA; hB]] [route V0 [hA; hC]] (route V0 []) init
           (trained [route V0 [hA; hB]])).
  - vm_compute. reflexivity.
  - right. right. reflexivity.
Defined.

(** C6 as stated fails: a route without holds is not accepted as a no-op
    ([add_climb] raises and has registered the label), and the route that
    follows it in the corpus is never trained on. *)
Lemma C6_zero_holds_not_a_noop :
  (add_climb V0 [] init).2 = Raised IndexError
  ∧ (add_climb V0 [] init).1 ≠ init
  ∧ (train_on_data [route V0 []; route V0 [hA; hC]] init).2 = Raised IndexError
  ∧ start_at (train_on_data [route V0 []; route V0 [hA; hC]] init).1 V0 = []
  ∧ start_at (trained [route V0 [hA; hC]]) V0 ≠ [].
Proof.
  split; [done|]. split; [by intros [=]|]. split; [done|]. split; [done|].
  vm_compute. discriminate.
Qed.

(** ** Reads of the tables during generation *)

Lemma same_reads_refl g : same_reads g g.
Proof. constructor; try done. intros d inner H. by exists inner. Qed.

Lemma same_reads_trans g1 g2 g3 :
  same_reads g1 g2 → same_reads g2 g3 → same_reads g1 g3.
Proof.
  intros [Hd Hs Ht Hks Hkt] [Hd' Hs' Ht' Hks' Hkt']. constructor.
  - congruence.
  - intros d. by rewrite Hs'.
  - intros d k. by rewrite Ht'.
  - by etrans.
  - intros d inner H. destruct (Hkt d inner H) as (inner' & H' & Hsub).
    destruct (Hkt' d inner' H') as (inner'' & H'' & Hsub').
    exists inner''. split; [done|]. by etrans.
Qed.

Lemma insert_default_subseteq `{Countable K} {V} (m : gmap K V) (k : K) (v : V) :
  m ⊆ <[k := default v (m !! k)]> m.
Proof.
  apply map_subseteq_spec. intros i x Hi. rewrite lookup_insert.
  case_decide; [subst; by rewrite Hi|done].
Qed.

Lemma read_start_positions_spec difficulty s :
  ∃ s', read_start_positions difficulty s = (s', Returned (start_at (model s) difficulty))
        ∧ same_reads (model s) (model s') ∧ draws s' = draws s.
Proof.
  eexists. split; [reflexivity|]. split; [|done]. simpl. constructor; simpl; try done.
  - intros d. unfold start_at. simpl. rewrite lookup_insert. by case_decide; subst.
  - apply insert_default_subseteq.
  - intros d inner H. by exists inner.
Qed.

Lemma read_transitions_spec difficulty current s :
  ∃ s', read_transitions difficulty current s
        = (s', Returned (dist_at (model s) difficulty current))
        ∧ same_reads (model s) (model s') ∧ draws s' = draws s.
Proof.
  eexists. split; [reflexivity|]. split; [|done]. simpl. constructor; simpl; try done.
  - intros d k. unfold dist_at. simpl. rewrite lookup_insert. case_decide; [|done].
    subst. simpl. rewrite lookup_insert. by case_decide; subst.
  - intros d inner H. rewrite lookup_insert. case_decide; [|by exists inner].
    subst. rewrite H. simpl. eexists. split; [done|]. apply insert_default_subseteq.
Qed.

(** ** The sampler *)

Lemma roulette_elem_of r cumsum valid_holds h :
  roulette r cumsum valid_holds = Some h → h ∈ states valid_holds.
Proof.
  revert cumsum. induction valid_holds as [|e rest IH]; intros cumsum; simpl; [done|].
  destruct (Qle_bool r (cumsum + entry_prob e)).
  - intros [= <-]. left.
  - intros H. right. by eapply IH.
Qed.

(** The sampler returns normally, leaves the model alone, and a hold it
    returns is the state of an entry of the distribution that passed every
    constraint. *)
Lemma _select_from_distribution_spec rnd distribution current_climb role_counts s :
  post (_select_from_distribution rnd distribution current_climb role_counts) s
       (λ s' r, model s' = model s
                ∧ ∃ o, r = Returned o
                       ∧ ∀ h, o = Some h →
                              ∃ e, e ∈ distribution ∧ entry_state e = h
                                   ∧ passes_constraints current_climb role_counts e = true).
Proof.
  unfold _select_from_distribution.
  destruct distribution as [|e0 dist0]; [by (split; [|exists None])|].
  set (distribution := e0 :: dist0).
  set (valid_holds := filter _ distribution).
  assert (Hvalid : ∀ h, h ∈ states valid_holds →
            ∃ e, e ∈ distribution ∧ entry_state e = h
                 ∧ passes_constraints current_climb role_counts e = true).
  { intros h (e & -> & He)%list_elem_of_fmap. apply list_elem_of_filter in He as [Hp He].
    by exists e. }
  destruct (last valid_holds) as [last_valid|] eqn:Elast; [|by (split; [|exists None])].
  destruct (Qeq_bool (total_weight valid_holds) 0); [by (split; [|exists None])|].
  unfold post, bind, np_random. cbn [fst snd].
  destruct (roulette _ 0 valid_holds) as [h|] eqn:Er; cbn [ret fst snd model].
  - split; [done|]. exists (Some h). split; [done|]. intros h' [= <-].
    apply Hvalid. by eapply roulette_elem_of.
  - split; [done|]. eexists. split; [done|]. intros h' [= <-].
    apply Hvalid. apply list_elem_of_fmap_2. by apply last_Some_elem_of.
Qed.

(** ** Role counts *)

Lemma counts_agree_nil : counts_agree ∅ [].
Proof. intros role. unfold count_of. by rewrite lookup_empty. Qed.

Lemma counts_agree_snoc role_counts climb h :
  counts_agree role_counts climb →
  counts_agree (count_incr role_counts (hold_role h)) (climb ++ [h]).
Proof.
  intros Hc role. unfold count_of, count_incr, role_count.
  rewrite filter_app, length_app, lookup_insert. rewrite filter_cons, filter_nil.
  destruct (decide (hold_role h = role)) as [E|E]; simpl.
  - fold (count_of role_counts (hold_role h)).
    rewrite Hc. unfold role_count. subst. lia.
  - fold (count_of role_counts role).
    rewrite Hc. unfold role_count. lia.
Qed.

(** ** The loops of [generate_climb] *)

Lemma post_read_start_positions difficulty s (Q : Session → outcome (list Entry) → Prop) :
  (∀ s', same_reads (model s) (model s') →
         Q s' (Returned (start_at (model s) difficulty))) →
  post (read_start_positions difficulty) s Q.
Proof.
  intros HQ. destruct (read_start_positions_spec difficulty s) as (s' & E & Hs & _).
  unfold post. rewrite E. by apply HQ.
Qed.

Lemma post_read_transitions difficulty current s (Q : Session → outcome (list Entry) → Prop) :
  (∀ s', same_reads (model s) (model s') →
         Q s' (Returned (dist_at (model s) difficulty current))) →
  post (read_transitions difficulty current) s Q.
Proof.
  intros HQ. destruct (read_transitions_spec difficulty current s) as (s' & E & Hs & _).
  unfold post. rewrite E. by apply HQ.
Qed.

Lemma post_select rnd distribution current_climb role_counts s
    (Q : Session → outcome (option Hold) → Prop) :
  (∀ s' o, model s' = model s →
           (∀ h, o = Some h →
                 ∃ e, e ∈ distribution ∧ entry_state e = h
                      ∧ passes_constraints current_climb role_counts e = true) →
           Q s' (Returned o)) →
  post (_select_from_distribution rnd distribution current_climb role_counts) s Q.
Proof.
  intros HQ. eapply post_mono; [apply _select_from_distribution_spec|].
  intros s' r (Hm & o & -> & Ho). by apply HQ.
Qed.

Lemma chain_impl (R R' : Hold → Hold → Prop) current rest :
  (∀ p h, R p h → R' p h) → chain R current rest → chain R' current rest.
Proof.
  intros HR. revert current. induction rest as [|h rest IH]; intros current; simpl; [done|].
  intros [H1 H2]. split; auto.
Qed.

Lemma selected_elem_of distribution (P : Entry → Prop) h :
  (∃ e, e ∈ distribution ∧ entry_state e = h ∧ P e) → h ∈ states distribution.
Proof. intros (e & He & <- & _). by apply list_elem_of_fmap_2. Qed.

Lemma generate_moves_spec rnd g0 difficulty min_moves remaining :
  ∀ current climb role_counts s,
    same_reads g0 (model s) → counts_agree role_counts climb →
    post (generate_moves rnd remaining difficulty min_moves current climb role_counts) s
         (λ s' r, same_reads g0 (model s')
                  ∧ ∃ rest role_counts',
                      r = Returned (climb ++ rest, role_counts')
                      ∧ counts_agree role_counts' (climb ++ rest)
                      ∧ chain (sampled_step g0 difficulty) current rest).
Proof.
  induction remaining as [|remaining IH]; intros current climb role_counts s Hs Hc.
  { split; [done|]. exists [], role_counts. by rewrite app_nil_r. }
  assert (Hstop : ∀ s', same_reads g0 (model s') →
            post (ret (climb, role_counts)) s'
              (λ s' r, same_reads g0 (model s')
                  ∧ ∃ rest role_counts',
                      r = Returned (climb ++ rest, role_counts')
                      ∧ counts_agree role_counts' (climb ++ rest)
                      ∧ chain (sampled_step g0 difficulty) current rest)).
  { intros s' Hs'. split; [done|]. exists [], role_counts. by rewrite app_nil_r. }
  cbn [generate_moves]. apply post_bind, post_read_transitions. intros s1 Hs1.
  assert (Hs1' : same_reads g0 (model s1)) by by eapply same_reads_trans.
  apply post_bind, post_select. intros s2 [h|] Hm Hsel; [|apply Hstop; by rewrite Hm].
  assert (Hs2 : same_reads g0 (model s2)) by by rewrite Hm.
  destruct (_is_valid_transition current h) eqn:Hv; [|by apply Hstop]. cbn [negb].
  assert (Hstep : sampled_step g0 difficulty current h).
  { split; [|done]. rewrite <- (same_dist_at _ _ Hs). eapply selected_elem_of. by apply Hsel. }
  pose proof (counts_agree_snoc _ _ h Hc) as Hc'.
  destruct (may_finish _ _ _).
  - split; [done|]. exists [h]. eexists. split; [done|]. by split.
  - eapply post_mono; [by apply IH|].
    intros s' r (Hs' & rest & rc' & -> & Hrc' & Hch). split; [done|].
    exists (h :: rest), rc'. rewrite <- app_assoc in *. by split.
Qed.

Lemma second_start_hold_spec rnd g0 difficulty start climb role_counts s :
  same_reads g0 (model s) → counts_agree role_counts climb →
  post (second_start_hold rnd difficulty start climb role_counts) s
       (λ s' r, same_reads g0 (model s')
                ∧ ∃ second role_counts',
                    r = Returned (climb ++ second, role_counts')
                    ∧ counts_agree role_counts' (climb ++ second)
                    ∧ (second = []
                       ∨ ∃ h, second = [h] ∧ hold_role h = START_ROLE
                              ∧ h ∈ states (dist_at g0 difficulty start))).
Proof.
  intros Hs Hc.
  assert (Hkeep : ∀ s', same_reads g0 (model s') →
            post (ret (climb, role_counts)) s'
              (λ s' r, same_reads g0 (model s')
                ∧ ∃ second role_counts',
                    r = Returned (climb ++ second, role_counts')
                    ∧ counts_agree role_counts' (climb ++ second)
                    ∧ (second = []
                       ∨ ∃ h, second = [h] ∧ hold_role h = START_ROLE
                              ∧ h ∈ states (dist_at g0 difficulty start)))).
  { intros s' Hs'. split; [done|]. exists [], role_counts. rewrite app_nil_r. auto. }
  unfold second_start_hold. apply post_bind. unfold post at 1, np_random. cbn [fst snd].
  destruct (negb _); [|by apply Hkeep].
  apply post_bind, post_read_transitions. cbn [model]. intros s1 Hs1.
  assert (Hs1' : same_reads g0 (model s1)) by by eapply same_reads_trans.
  apply post_bind, post_select. intros s2 [h|] Hm Hsel; [|apply Hkeep; by rewrite Hm].
  assert (Hs2 : same_reads g0 (model s2)) by by rewrite Hm.
  destruct (hold_role h =? START_ROLE) eqn:Hr; [|by apply Hkeep].
  split; [done|]. exists [h]. eexists. split; [done|].
  split; [by apply counts_agree_snoc|]. right. exists h. split; [done|].
  split; [by apply Z.eqb_eq|].
  rewrite <- (same_dist_at _ _ Hs). eapply selected_elem_of. by apply Hsel.
Qed.

Lemma is_complete_route min_moves max_moves climb role_counts :
  counts_agree role_counts climb →
  is_complete min_moves max_moves climb role_counts = true →
  complete_route min_moves max_moves climb.
Proof.
  intros Hc. unfold is_complete, complete_route. rewrite !Hc.
  rewrite !andb_true_iff, !Z.leb_le. tauto.
Qed.

Lemma attempts_spec rnd g0 difficulty min_moves max_moves remaining :
  ∀ s, same_reads g0 (model s) →
    post (attempts rnd remaining difficulty min_moves max_moves) s
         (λ s' r, same_reads g0 (model s')
                  ∧ ∃ o, r = Returned o
                         ∧ ∀ climb, o = Some climb →
                                    complete_route min_moves max_moves climb
                                    ∧ route_shape g0 difficulty climb).
Proof.
  induction remaining as [|remaining IH]; intros s Hs.
  { split; [done|]. by exists None. }
  cbn [attempts]. apply post_bind, post_read_start_positions. intros s1 Hs1.
  assert (Hs1' : same_reads g0 (model s1)) by by eapply same_reads_trans.
  apply post_bind, post_select. intros s2 [start|] Hm Hsel; [|apply IH; by rewrite Hm].
  assert (Hs2 : same_reads g0 (model s2)) by by rewrite Hm.
  assert (Hstart : start ∈ states (start_at g0 difficulty)).
  { rewrite <- (same_start_at _ _ Hs). eapply selected_elem_of. by apply Hsel. }
  apply post_bind. eapply post_mono.
  { apply (second_start_hold_spec rnd g0); [done|]. apply counts_agree_snoc, counts_agree_nil. }
  intros s3 r (Hs3 & second & rc3 & -> & Hc3 & Hsecond).
  apply post_bind. eapply post_mono; [by apply (generate_moves_spec rnd g0)|].
  intros s4 r (Hs4 & rest & rc4 & -> & Hc4 & Hchain).
  destruct (is_complete _ _ _ _) eqn:Hcomplete; [|by apply IH].
  split; [done|]. eexists. split; [done|]. intros climb [= <-]. split.
  - by eapply is_complete_route.
  - by exists start, second, rest.
Qed.

Lemma generate_climb_spec rnd difficulty min_moves max_moves max_attempts s :
  post (generate_climb rnd difficulty min_moves max_moves max_attempts) s
       (λ s' r, same_reads (model s) (model s')
                ∧ if decide (difficulty ∈ difficulties (model s))
                  then ∃ o, r = Returned o
                            ∧ ∀ climb, o = Some climb →
                                       complete_route min_moves max_moves climb
                                       ∧ route_shape (model s) difficulty climb
                  else s' = s ∧ r = Raised ValueError).
Proof.
  unfold generate_climb. apply post_bind. unfold post at 1, get. cbn [fst snd].
  case_decide.
  - apply attempts_spec, same_reads_refl.
  - split; [apply same_reads_refl|done].
Qed.

(** ** C1: what [generate_climb] hands back *)

(** C1.  A call of [generate_climb] ends in one of three ways: it raises the
    configuration error (exactly when the difficulty is not registered), it
    returns [None], or it returns a route whose length is within
    [min_moves, max_moves] and which has one or two START holds and one or
    two FINISH holds.  Running out of attempts is the [None] return. *)
Theorem C1_generate_climb_none_or_complete
    (rnd : nat → Q) (difficulty : string) (min_moves max_moves max_attempts : Z)
    (s : Session) :
  let r := outcome_of (generate_climb rnd difficulty min_moves max_moves max_attempts) s in
  (r = Raised ValueError ∧ difficulty ∉ difficulties (model s))
  ∨ r = Returned None
  ∨ ∃ climb, r = Returned (Some climb)
             ∧ min_moves ≤ Z.of_nat (length climb) ≤ max_moves
             ∧ (role_count START_ROLE climb = 1 ∨ role_count START_ROLE climb = 2)
             ∧ (role_count FINISH_ROLE climb = 1 ∨ role_count FINISH_ROLE climb = 2).
Proof.
  cbv zeta. unfold outcome_of.
  destruct (generate_climb_spec rnd difficulty min_moves max_moves max_attempts s) as [_ H].
  case_decide.
  - destruct H as ([climb|] & -> & Hc); [|by right; left].
    right. right. exists climb. split; [done|].
    destruct (Hc climb eq_refl) as [(Hlen & Hs & Hf) _]. split; [done|]. lia.
  - left. by destruct H as [_ ->].
Qed.

(** ** C2: the validator along a returned route *)

(** C2 as stated fails: the route [hA; hB; hC] is returned, with [hB]
    appended as second start hold at distance 4 from [hA]. *)
Lemma C2_second_start_unvalidated :
  outcome_of (generate_climb rnd_zero V0 3 20 100) (mkSession (trained two_starts_corpus) 0)
  = Returned (Some [hA; hB; hC])
  ∧ _is_valid_transition hA hB = false
  ∧ ¬ consecutive_valid [hA; hB; hC].
Proof.
  split; [vm_compute; reflexivity|]. split; [reflexivity|].
  simpl. intros [H _]. vm_compute in H. discriminate.
Qed.

(** C2, as the code has it.  A returned route is its start hold, at most one
    second start hold (of START role, appended without the validator), and
    then the holds appended by the move loop; each of those passes the
    validator against its predecessor among them, the predecessor of the
    first being the start hold.  So when the second hold of the route is not
    of START role, every consecutive pair passes the validator. *)
Theorem C2_validated_against_predecessor
    (rnd : nat → Q) (difficulty : string) (min_moves max_moves max_attempts : Z)
    (s : Session) (climb : list Hold) :
  outcome_of (generate_climb rnd difficulty min_moves max_moves max_attempts) s
  = Returned (Some climb) →
  (∃ start second rest,
      climb = start :: second ++ rest
      ∧ (second = [] ∨ ∃ h, second = [h] ∧ hold_role h = START_ROLE)
      ∧ chain (λ p h, _is_valid_transition p h = true) start rest)
  ∧ ((∀ h, climb !! 1%nat = Some h → hold_role h ≠ START_ROLE) → consecutive_valid climb).
Proof.
  unfold outcome_of. intros Hr.
  destruct (generate_climb_spec rnd difficulty min_moves max_moves max_attempts s) as [_ H].
  case_decide; [|destruct H as [_ H]; congruence].
  destruct H as (o & Ho & Hc). rewrite Hr in Ho. injection Ho as <-.
  destruct (Hc climb eq_refl) as [_ (start & second & rest & -> & _ & Hsecond & Hchain)].
  assert (Hvalid : chain (λ p h, _is_valid_transition p h = true) start rest).
  { eapply chain_impl; [|exact Hchain]. by intros p h [_ Hv]. }
  split.
  - exists start, second, rest. split; [done|]. split; [|done].
    destruct Hsecond as [->|(h & -> & Hrole & _)]; [by left|right; by exists h].
  - intros Hno. destruct Hsecond as [->|(h & -> & Hrole & _)]; [done|].
    by destruct (Hno h eq_refl).
Qed.

Lemma C2_validated_against_predecessor_witness :
  (∃ start second rest,
      [hA; hB; hC] = start :: second ++ rest
      ∧ (second = [] ∨ ∃ h, second = [h] ∧ hold_role h = START_ROLE)
      ∧ chain (λ p h, _is_valid_transition p h = true) start rest)
  ∧ ((∀ h, [hA; hB; hC] !! 1%nat = Some h → hold_role h ≠ START_ROLE)
     → consecutive_valid [hA; hB; hC]).
Proof.
  apply (C2_validated_against_predecessor rnd_zero V0 3 20 100
           (mkSession (trained two_starts_corpus) 0)).
  vm_compute. reflexivity.
Defined.

(** ** C5: the generator's tables during generation *)

(** C5 as stated fails: the tables are [defaultdict]s, and the read of
    [transitions["V0"][hA]] stores an empty list under a key that training
    never created. *)
Lemma C5_read_adds_entry :
  transitions (trained one_hold_corpus) !! V0 = None
  ∧ transitions (model (state_after (generate_climb rnd_zero V0 8 20 100)
                                    (mkSession (trained one_hold_corpus) 0))) !! V0
    = Some {[ hA := [] ]}
  ∧ model (state_after (generate_climb rnd_zero V0 8 20 100)
                       (mkSession (trained one_hold_corpus) 0))
    ≠ trained one_hold_corpus.
Proof.
  split; [vm_compute; reflexivity|]. split; [vm_compute; reflexivity|].
  intros H. apply (f_equal (λ g, transitions g !! V0)) in H. vm_compute in H. discriminate.
Qed.

(** C5, as the code has it.  After a call of [generate_climb] the list of
    difficulties is the same, every read of a start distribution or of a
    transition distribution returns what it returned before the call, and
    every entry present before the call is still there with the same value;
    keys may have been added, holding the empty default. *)
Theorem C5_generation_preserves_reads
    (rnd : nat → Q) (difficulty : string) (min_moves max_moves max_attempts : Z)
    (s : Session) :
  same_reads (model s)
             (model (state_after (generate_climb rnd difficulty min_moves max_moves max_attempts) s)).
Proof.
  by destruct (generate_climb_spec rnd difficulty min_moves max_moves max_attempts s) as [H _].
Qed.

(** ** C7: the vertical filter on an empty route *)

(** C7 as stated fails: against an empty route a hold at [y = -8] is
    returned. *)
Lemma C7_negative_y_selected :
  outcome_of (_select_from_distribution rnd_zero [(0, -8, 5, 1%Q)] [] ∅) (mkSession init 0)
  = Returned (Some (0, -8, 5))
  ∧ hold_y (0, -8, 5) < 0.
Proof. split; [vm_compute; reflexivity|done]. Qed.

Lemma passes_constraints_vertical current_climb role_counts e :
  passes_constraints current_climb role_counts e = true →
  current_y_of current_climb - 8 ≤ hold_y (entry_state e).
Proof.
  destruct e as [[[x y] role] prob]. unfold passes_constraints.
  destruct (y <? current_y_of current_climb - 8) eqn:E; [done|].
  intros _. apply Z.ltb_ge in E. done.
Qed.

Lemma _is_valid_paired_holds_empty new_hold :
  _is_valid_paired_holds [] new_hold = true.
Proof.
  unfold _is_valid_paired_holds, _find_paired_hold_distance. simpl.
  rewrite !filter_cons, !filter_nil.
  destruct (hold_role new_hold =? START_ROLE), (hold_role new_hold =? FINISH_ROLE);
    repeat case_decide; done.
Qed.

Lemma passes_constraints_empty_route role_counts e :
  passes_constraints [] role_counts e = true
  ↔ -8 ≤ hold_y (entry_state e) ∧ passes_role_filters role_counts (entry_state e).
Proof.
  destruct e as [[[x y] role] prob].
  unfold passes_constraints, passes_role_filters, entry_state, hold_y, hold_role.
  rewrite _is_valid_paired_holds_empty. simpl.
  change (current_y_of [] - 8) with (-8).
  unfold FOOTHOLD_ROLE, FOOTHOLD_MAX_Y, START_ROLE, FINISH_ROLE.
  destruct (y <? -8) eqn:Ey; [apply Z.ltb_lt in Ey; split; [done|lia]|].
  apply Z.ltb_ge in Ey.
  destruct (role =? 8) eqn:E8, (32 <? y) eqn:E32, (role =? 5) eqn:E5, (role =? 7) eqn:E7,
           (2 <=? count_of role_counts role) eqn:Ec; simpl;
    rewrite ?Z.eqb_eq, ?Z.eqb_neq, ?Z.ltb_lt, ?Z.ltb_ge, ?Z.leb_le, ?Z.leb_gt in *;
    (split; [try done; intros _; repeat split; intros; subst; lia
            |try done; intros (_ & H8 & H5 & H7); subst; lia]).
Qed.

(** C7, as the code has it.  Against an empty route the current height is
    taken to be 0 and the same 8-unit allowance applies, so the vertical
    test admits exactly the candidates with [y ≥ -8]:
    - a candidate passes the filters of the sampler exactly when its [y] is
      at least -8 and it passes the filters on its role (the paired-hold
      check cannot fail on an empty route);
    - a hold that the sampler returns has [y ≥ -8];
    - when some entry with [y ≥ -8] passes the role filters the sampler
      returns a hold, unless the passing entries have total weight zero;
    - a distribution with a single such entry, of non-zero weight, yields
      that entry. *)
Theorem C7_empty_route_lower_bound
    (rnd : nat → Q) (distribution : list Entry) (role_counts : gmap Z Z) (s : Session) :
  let run := _select_from_distribution rnd distribution [] role_counts in
  let valid_holds := filter (λ e, passes_constraints [] role_counts e = true) distribution in
  (∀ e, passes_constraints [] role_counts e = true
        ↔ -8 ≤ hold_y (entry_state e) ∧ passes_role_filters role_counts (entry_state e))
  ∧ (∀ h, outcome_of run s = Returned (Some h) → -8 ≤ hold_y h)
  ∧ (∀ e, e ∈ distribution → -8 ≤ hold_y (entry_state e) →
          passes_role_filters role_counts (entry_state e) →
          ¬ (total_weight valid_holds == 0)%Q →
          ∃ h, outcome_of run s = Returned (Some h))
  ∧ (∀ e, distribution = [e] → -8 ≤ hold_y (entry_state e) →
          passes_role_filters role_counts (entry_state e) →
          ¬ (entry_prob e == 0)%Q →
          outcome_of run s = Returned (Some (entry_state e))).
Proof.
  cbv zeta. split; [apply passes_constraints_empty_route|]. split; [|split].
  - unfold outcome_of. intros h Hr.
    destruct (_select_from_distribution_spec rnd distribution [] role_counts s)
      as (_ & o & Ho & Hsel).
    rewrite Hr in Ho. injection Ho as <-.
    destruct (Hsel h eq_refl) as (e & _ & <- & Hp).
    by apply passes_constraints_vertical in Hp.
  - intros e Hin Hy Hrole Hnz.
    assert (Hvalid : e ∈ filter (λ e, passes_constraints [] role_counts e = true) distribution).
    { apply list_elem_of_filter. split; [|done]. by apply passes_constraints_empty_route. }
    unfold outcome_of, _select_from_distribution.
    destruct distribution as [|e0 dist0]; [by apply elem_of_nil in Hin|].
    destruct (last _) as [last_valid|] eqn:Elast.
    2:{ apply last_None in Elast. rewrite Elast in Hvalid. by apply elem_of_nil in Hvalid. }
    destruct (Qeq_bool _ 0) eqn:Ez; [by apply Qeq_bool_iff in Ez|].
    unfold bind, np_random. cbn [fst snd].
    destruct (roulette _ 0 _) as [h|]; by eexists.
  - intros e -> Hy Hrole Hnz.
    assert (Hp : passes_constraints [] role_counts e = true)
      by by apply passes_constraints_empty_route.
    unfold outcome_of, _select_from_distribution.
    rewrite filter_cons, decide_True, filter_nil by done. cbn [last].
    assert (Hw : (total_weight [e] == entry_prob e)%Q).
    { rewrite total_weight_cons. change (total_weight []) with 0%Q. ring. }
    destruct (Qeq_bool (total_weight [e]) 0) eqn:Ez.
    { apply Qeq_bool_iff in Ez. rewrite Hw in Ez. done. }
    unfold bind, np_random. cbn [fst snd roulette].
    by destruct (Qle_bool _ _).
Qed.

Lemma C7_empty_route_lower_bound_witness :
  -8 ≤ hold_y (0, -8, 5)
  ∧ passes_constraints [] ∅ (0, -7, 5, 1%Q) = true
  ∧ outcome_of (_select_from_distribution rnd_zero [(0, -8, 5, 1%Q)] [] ∅) (mkSession init 0)
    = Returned (Some (0, -8, 5)).
Proof.
  pose proof (C7_empty_route_lower_bound rnd_zero [(0, -8, 5, 1%Q)] ∅ (mkSession init 0))
    as (Hexact & Hbound & _ & Hsingle).
  split; [|split].
  - apply Hbound. vm_compute. reflexivity.
  - apply Hexact. vm_compute. repeat split; intros; congruence.
  - apply (Hsingle (0, -8, 5, 1%Q)).
    + reflexivity.
    + vm_compute. congruence.
    + vm_compute. repeat split; intros; congruence.
    + vm_compute. congruence.
Defined.

(** ** C8: the configuration error *)

(** C8.  For a difficulty that is not registered, [generate_climb] raises the
    configuration error at once: the session is unchanged (no table was read
    and no random number drawn, so no attempt was made) and nothing is
    returned.  For a registered difficulty it returns (a route or [None]). *)
Theorem C8_unknown_difficulty_raises
    (rnd : nat → Q) (difficulty : string) (min_moves max_moves max_attempts : Z)
    (s : Session) :
  (difficulty ∉ difficulties (model s) →
   generate_climb rnd difficulty min_moves max_moves max_attempts s = (s, Raised ValueError))
  ∧ (difficulty ∈ difficulties (model s) →
     ∃ o, outcome_of (generate_climb rnd difficulty min_moves max_moves max_attempts) s
          = Returned o).
Proof.
  unfold outcome_of.
  pose proof (generate_climb_spec rnd difficulty min_moves max_moves max_attempts s) as [_ H].
  split; intros Hd.
  - rewrite decide_False in H by done. destruct H as [H1 H2].
    destruct (generate_climb _ _ _ _ _ s) as [s' r]. simpl in *. congruence.
  - rewrite decide_True in H by done. destruct H as (o & Ho & _). by exists o.
Qed.

Lemma C8_unknown_difficulty_raises_witness :
  generate_climb rnd_zero "V9" 8 20 100 (mkSession (trained two_starts_corpus) 0)
  = (mkSession (trained two_starts_corpus) 0, Raised ValueError)
  ∧ ∃ o, outcome_of (generate_climb rnd_zero V0 8 20 100)
                    (mkSession (trained two_starts_corpus) 0) = Returned o.
Proof.
  split.
  - apply (C8_unknown_difficulty_raises rnd_zero "V9" 8 20 100
             (mkSession (trained two_starts_corpus) 0)).
    vm_compute. intros H. repeat (inversion H as [|? ? ? H']; clear H; rename H' into H).
  - apply (C8_unknown_difficulty_raises rnd_zero V0 8 20 100
             (mkSession (trained two_starts_corpus) 0)).
    vm_compute. left.
Defined.

(** ** C9: the predecessor after a second start hold *)

(** C9.  Take an attempt whose start hold is [start] and in which the second
    start hold [second] is appended, so that the route is [start; second]
    when the move loop begins.  The loop then appends [rest], where every
    hold is drawn from the table entry of, and validated against, its
    predecessor in [start :: rest]: the predecessor of the first appended
    hold is [start], not the route's last hold [second], and each appended
    hold becomes the predecessor of the next.  The attempt ends with the
    route [start; second] ++ rest. *)
Theorem C9_predecessor_stays_first_start
    (rnd : nat → Q) (difficulty : string) (min_moves max_moves : Z) (remaining : nat)
    (s s1 s2 : Session) (start second : Hold) (role_counts : gmap Z Z) :
  bind (read_start_positions difficulty)
       (λ distribution, _select_from_distribution rnd distribution [] ∅) s
  = (s1, Returned (Some start)) →
  second_start_hold rnd difficulty start [start] (count_incr ∅ (hold_role start)) s1
  = (s2, Returned ([start; second], role_counts)) →
  ∃ rest role_counts' s3,
    generate_moves rnd (Z.to_nat (max_moves - 1)) difficulty min_moves
                   start [start; second] role_counts s2
    = (s3, Returned ([start; second] ++ rest, role_counts'))
    ∧ chain (sampled_step (model s) difficulty) start rest
    ∧ attempts rnd (S remaining) difficulty min_moves max_moves s
      = if is_complete min_moves max_moves ([start; second] ++ rest) role_counts'
        then (s3, Returned (Some ([start; second] ++ rest)))
        else attempts rnd remaining difficulty min_moves max_moves s3.
Proof.
  intros Hstart Hsecond.
  assert (Hs1 : same_reads (model s) (model s1)).
  { unfold bind in Hstart.
    destruct (read_start_positions_spec difficulty s) as (s0 & E & Hs0 & _).
    rewrite E in Hstart.
    pose proof (post_run _ _ _ _ _ (_select_from_distribution_spec rnd _ [] ∅ s0) Hstart)
      as [Hm _]. by rewrite Hm. }
  pose proof (post_run _ _ _ _ _
                (second_start_hold_spec rnd (model s) difficulty start [start] _ s1 Hs1
                   (counts_agree_snoc _ _ start counts_agree_nil)) Hsecond)
    as (Hs2 & second' & rc' & Heq & Hc2 & _).
  injection Heq as Heq1 <-. rewrite <- Heq1 in Hc2.
  pose proof (generate_moves_spec rnd (model s) difficulty min_moves
                (Z.to_nat (max_moves - 1)) start [start; second] role_counts s2 Hs2 Hc2)
    as Hmoves.
  unfold post in Hmoves.
  destruct (generate_moves _ _ _ _ _ _ _ s2) as [s3 r] eqn:Em. cbn [fst snd] in Hmoves.
  destruct Hmoves as (_ & rest & rc3 & -> & _ & Hchain).
  exists rest, rc3, s3. split; [done|]. split; [done|].
  cbn [attempts]. unfold bind in *.
  destruct (read_start_positions difficulty s) as [s0 [distribution|e]]; [|done].
  rewrite Hstart. change ([] ++ [start]) with [start]. rewrite Hsecond.
  change (start :: second :: rest) with ([start; second] ++ rest) in Em.
  rewrite Em. by destruct (is_complete _ _ _ _).
Qed.

Lemma C9_predecessor_stays_first_start_witness :
  let s := mkSession (trained two_starts_corpus) 0 in
  let s1 := state_after (bind (read_start_positions V0)
                              (λ distribution,
                                 _select_from_distribution rnd_zero distribution [] ∅)) s in
  let s2 := state_after (second_start_hold rnd_zero V0 hA [hA] (count_incr ∅ 5)) s1 in
  ∃ rest role_counts' s3,
    generate_moves rnd_zero (Z.to_nat (20 - 1)) V0 3 hA [hA; hB]
                   (count_incr (count_incr ∅ 5) 5) s2
    = (s3, Returned ([hA; hB] ++ rest, role_counts'))
    ∧ chain (sampled_step (model s) V0) hA rest
    ∧ attempts rnd_zero 1 V0 3 20 s
      = if is_complete 3 20 ([hA; hB] ++ rest) role_counts'
        then (s3, Returned (Some ([hA; hB] ++ rest)))
        else attempts rnd_zero 0 V0 3 20 s3.
Proof.
  intros s s1 s2.
  apply (C9_predecessor_stays_first_start rnd_zero V0 3 20 0 s s1 s2).
  - vm_compute. reflexivity.
  - vm_compute. reflexivity.
Defined.

(** In that run the hold appended after the second start hold is an entry of
    the table for the first start hold and of no entry for the second. *)
Example second_start_is_skipped :
  outcome_of (attempts rnd_zero 1 V0 3 20) (mkSession (trained two_starts_corpus) 0)
  = Returned (Some [hA; hB; hC])
  ∧ hC ∈ states (dist_at (trained two_starts_corpus) V0 hA)
  ∧ dist_at (trained two_starts_corpus) V0 hB = [].
Proof.
  split; [vm_compute; reflexivity|]. split; [|vm_compute; reflexivity].
  vm_compute. right. left.
Qed.

(** ** C10: returned holds come from the trained model *)

(** C10.  A returned route starts with a state listed by the start
    distribution of the difficulty; a second start hold, if there is one, is
    listed by the transition distribution of the first; and every hold
    appended by the move loop is listed by the transition distribution of
    the predecessor it was sampled from.  Hence every hold of the route is a
    state stored for that difficulty, and the sampler only ever returns a
    state of the distribution it is given. *)
Theorem C10_route_holds_from_model
    (rnd : nat → Q) (difficulty : string) (min_moves max_moves max_attempts : Z)
    (s : Session) (climb : list Hold) :
  outcome_of (generate_climb rnd difficulty min_moves max_moves max_attempts) s
  = Returned (Some climb) →
  let g := model s in
  (∃ start second rest,
      climb = start :: second ++ rest
      ∧ start ∈ states (start_at g difficulty)
      ∧ (second = [] ∨ ∃ h, second = [h] ∧ h ∈ states (dist_at g difficulty start))
      ∧ chain (λ p h, h ∈ states (dist_at g difficulty p)) start rest)
  ∧ (∀ h, h ∈ climb →
          h ∈ states (start_at g difficulty)
          ∨ ∃ p, p ∈ climb ∧ h ∈ states (dist_at g difficulty p))
  ∧ (∀ distribution current_climb role_counts s0 h,
        outcome_of (_select_from_distribution rnd distribution current_climb role_counts) s0
        = Returned (Some h) →
        h ∈ states distribution).
Proof.
  intros Hr g. unfold outcome_of in *.
  destruct (generate_climb_spec rnd difficulty min_moves max_moves max_attempts s) as [_ H].
  case_decide; [|destruct H as [_ H]; congruence].
  destruct H as (o & Ho & Hc). rewrite Hr in Ho. injection Ho as <-.
  destruct (Hc climb eq_refl) as [_ (start & second & rest & -> & Hstart & Hsecond & Hchain)].
  fold g in Hstart, Hsecond, Hchain.
  assert (Hfrom : chain (λ p h, h ∈ states (dist_at g difficulty p)) start rest).
  { eapply chain_impl; [|exact Hchain]. by intros p h [Hin _]. }
  assert (Hsecond' : second = [] ∨ ∃ h, second = [h] ∧ h ∈ states (dist_at g difficulty start)).
  { destruct Hsecond as [->|(h & -> & _ & Hin)]; [by left|right; by exists h]. }
  split; [by exists start, second, rest|]. split.
  - assert (Hrest : ∀ p pre, chain (λ p h, h ∈ states (dist_at g difficulty p)) p rest →
              ∀ h, h ∈ rest → ∃ q, q ∈ p :: pre ++ rest ∧ h ∈ states (dist_at g difficulty q)).
    { clear. induction rest as [|x rest IH]; intros p pre Hch h Hh; [by apply elem_of_nil in Hh|].
      destruct Hch as [Hx Hch]. apply elem_of_cons in Hh as [->|Hh].
      - exists p. split; [left|done].
      - destruct (IH x (pre ++ [p]) Hch h Hh) as (q & Hq & Hin). exists q. split; [|done].
        revert Hq. rewrite !elem_of_cons, !elem_of_app, !elem_of_cons, elem_of_nil. tauto. }
    intros h Hh. apply elem_of_cons in Hh as [->|Hh]; [by left|]. right.
    apply elem_of_app in Hh as [Hh|Hh].
    + destruct Hsecond' as [->|(h2 & -> & Hin)]; [by apply elem_of_nil in Hh|].
      apply list_elem_of_singleton in Hh as ->. exists start. split; [left|done].
    + by apply (Hrest start second Hfrom).
  - intros distribution current_climb role_counts s0 h Hsel.
    destruct (_select_from_distribution_spec rnd distribution current_climb role_counts s0)
      as (_ & o & Ho & Hin).
    rewrite Hsel in Ho. injection Ho as <-. eapply selected_elem_of. by apply Hin.
Qed.

Lemma C10_route_holds_from_model_witness :
  let g := trained two_starts_corpus in
  (∃ start second rest,
      [hA; hB; hC] = start :: second ++ rest
      ∧ start ∈ states (start_at g V0)
      ∧ (second = [] ∨ ∃ h, second = [h] ∧ h ∈ states (dist_at g V0 start))
      ∧ chain (λ p h, h ∈ states (dist_at g V0 p)) start rest)
  ∧ (∀ h, h ∈ [hA; hB; hC] →
          h ∈ states (start_at g V0) ∨ ∃ p, p ∈ [hA; hB; hC] ∧ h ∈ states (dist_at g V0 p))
  ∧ (∀ distribution current_climb role_counts s0 h,
        outcome_of (_select_from_distribution rnd_zero distribution current_climb role_counts) s0
        = Returned (Some h) →
        h ∈ states distribution).
Proof.
  apply (C10_route_holds_from_model rnd_zero V0 3 20 100
           (mkSession (trained two_starts_corpus) 0)).
  vm_compute. reflexivity.
Defined.

(** * Further properties of the code *)

(** ** Insertion into a distribution *)

Lemma weight_of_cons e d k :
  weight_of (e :: d) k = if decide (entry_state e = k) then entry_prob e else weight_of d k.
Proof.
  unfold weight_of. simpl. destruct (decide (entry_state e = k)); [done|].
  by destruct (list_find _ d) as [[i e']|].
Qed.

Lemma weight_of_increment d state d' k :
  increment_existing d state = Some d' →
  (weight_of d' k == weight_of d k + indicator k state)%Q.
Proof.
  revert d'. induction d as [|e d IH]; intros d'; simpl; [done|].
  destruct (decide (entry_state e = state)) as [Heq|Hne].
  - intros [= <-]. rewrite !weight_of_cons. unfold entry_state at 1, entry_prob at 1, indicator.
    simpl. fold (entry_state e). destruct (decide (entry_state e = k)) as [Hk|Hk].
    + rewrite decide_True by congruence. ring.
    + rewrite decide_False by congruence. ring.
  - destruct (increment_existing d state) as [d0|] eqn:E; simpl; [|done].
    intros [= <-]. rewrite !weight_of_cons.
    destruct (decide (entry_state e = k)) as [Hk|Hk]; [|by apply IH].
    unfold indicator. rewrite decide_False by congruence. ring.
Qed.

Lemma weight_of_snoc_absent d state k :
  state ∉ states d →
  (weight_of (d ++ [(state, 1%Q)]) k == weight_of d k + indicator k state)%Q.
Proof.
  induction d as [|e d IH]; intros Hnin.
  - simpl. rewrite weight_of_cons. unfold indicator, entry_state, entry_prob. simpl.
    destruct (decide (state = k)) as [->|Hne].
    + rewrite !decide_True by done. change (weight_of [] k) with 0%Q. ring.
    + rewrite !decide_False by congruence. change (weight_of [] k) with 0%Q. ring.
  - apply not_elem_of_cons in Hnin as [Hne Hnin].
    rewrite <- app_comm_cons, !weight_of_cons.
    destruct (decide (entry_state e = k)) as [Hk|Hk]; [|by apply IH].
    unfold indicator. rewrite decide_False by congruence. ring.
Qed.

Lemma weight_of_observe_state d state k :
  (weight_of (observe_state d state) k == weight_of d k + indicator k state)%Q.
Proof.
  unfold observe_state. destruct (increment_existing d state) as [d'|] eqn:E.
  - by apply weight_of_increment.
  - apply weight_of_snoc_absent. by apply increment_existing_None.
Qed.

Lemma weight_of_scaled d t k :
  (weight_of ((λ e, (entry_state e, (entry_prob e / t)%Q)) <$> d) k == weight_of d k / t)%Q.
Proof.
  induction d as [|e d IH].
  - simpl. unfold weight_of. simpl. unfold Qdiv. ring.
  - rewrite fmap_cons, !weight_of_cons. unfold entry_state at 1, entry_prob at 1. simpl.
    destruct (decide (entry_state e = k)); [reflexivity|apply IH].
Qed.

Lemma states_observe_state d state k :
  k ∈ states (observe_state d state) ↔ k ∈ states d ∨ k = state.
Proof.
  unfold observe_state. destruct (increment_existing d state) as [d'|] eqn:E.
  - destruct (increment_existing_Some _ _ _ E) as (-> & _).
    split; [by left|]. intros [H| ->]; [done|].
    destruct (decide (state ∈ states d)) as [Hin|Hnin]; [done|].
    apply increment_existing_None in Hnin. congruence.
  - unfold states. rewrite fmap_app, elem_of_app. simpl. by rewrite list_elem_of_singleton.
Qed.

(** X1.  The weight update of one insertion.  Inserting [state] into a non-empty
    normalized distribution returns normally and halves every stored weight
    after adding one to that of [state]: the weight of [k] becomes
    [(w k + 1) / 2] for [k = state] and [w k / 2] otherwise. *)
Theorem X_insertion_halves_weights (d : list Entry) (state k : Hold) :
  normalized d → d ≠ [] →
  (_add_to_distribution d state).2 = Returned tt
  ∧ (weight_of (_add_to_distribution d state).1 k
     == (weight_of d k + indicator k state) / 2)%Q.
Proof.
  intros Hd Hne. pose proof Hd as [_ Hpos [->|Htot]]; [done|].
  destruct (_add_to_distribution_normalized d state Hd) as (d' & E & _).
  rewrite E. split; [done|]. simpl.
  destruct (observe_state_spec d state) as (Hsum & _).
  unfold _add_to_distribution in E.
  destruct (Qeq_bool (total_weight (observe_state d state)) 0); [done|].
  injection E as <-. rewrite weight_of_scaled, weight_of_observe_state, Hsum, Htot.
  reflexivity.
Qed.

Lemma X_insertion_halves_weights_witness :
  (_add_to_distribution [(hA, 1%Q)] hB).2 = Returned tt
  ∧ (weight_of (_add_to_distribution [(hA, 1%Q)] hB).1 hA
     == (weight_of [(hA, 1%Q)] hA + indicator hA hB) / 2)%Q.
Proof.
  apply (X_insertion_halves_weights [(hA, 1%Q)] hB hA).
  - constructor.
    + apply NoDup_singleton.
    + repeat constructor.
    + right. reflexivity.
  - discriminate.
Defined.

Lemma insert_all_states observed d k :
  normalized d →
  (k ∈ states (insert_all d observed).1 ↔ k ∈ states d ∨ k ∈ observed).
Proof.
  revert d. induction observed as [|h rest IH]; intros d Hd; simpl.
  - rewrite elem_of_nil. tauto.
  - destruct (_add_to_distribution_normalized d h Hd) as (d1 & E & Hd1 & _).
    rewrite E. rewrite (IH d1 Hd1), elem_of_cons.
    assert (Hst : k ∈ states d1 ↔ k ∈ states d ∨ k = h).
    { unfold _add_to_distribution in E.
      destruct (Qeq_bool _ 0); injection E as <-;
        [|rewrite states_scaled]; apply states_observe_state. }
    tauto.
Qed.

(** X2.  The support of a distribution.  After inserting the observed states
    into a fresh distribution, the stored states are exactly the observed
    ones.  (Nothing is said of the stored weights: a weight is halved by each
    later insertion, and a float can reach zero this way.) *)
Theorem X_insertions_store_observed (observed : list Hold) (k : Hold) :
  let d := (insert_all [] observed).1 in
  k ∈ states d ↔ k ∈ observed.
Proof.
  cbv zeta. rewrite (insert_all_states observed [] k normalized_nil).
  unfold states. simpl. rewrite elem_of_nil. tauto.
Qed.

(** ** What a training step stores *)

Lemma _add_to_distribution_states d state k :
  k ∈ states (_add_to_distribution d state).1 ↔ k ∈ states d ∨ k = state.
Proof.
  unfold _add_to_distribution. destruct (Qeq_bool _ 0); simpl;
    [|rewrite states_scaled]; apply states_observe_state.
Qed.

Lemma keeps_states_refl g : keeps_states g g.
Proof. by split. Qed.

Lemma keeps_states_trans g1 g2 g3 :
  keeps_states g1 g2 → keeps_states g2 g3 → keeps_states g1 g3.
Proof. intros [H1 H2] [H1' H2']. split; eauto. Qed.

Lemma only_touches_refl difficulty g : only_touches difficulty g g.
Proof. by intros other _. Qed.

Lemma only_touches_trans difficulty g1 g2 g3 :
  only_touches difficulty g1 g2 → only_touches difficulty g2 g3 →
  only_touches difficulty g1 g3.
Proof.
  intros H1 H2 other Hne. destruct (H1 other Hne) as [Hs Ht], (H2 other Hne) as [Hs' Ht'].
  split; [congruence|]. intros k. by rewrite Ht'.
Qed.

Lemma add_start_effect difficulty start g :
  model_normalized g →
  ∃ g', add_start difficulty start g = (g', Returned tt)
        ∧ model_normalized g'
        ∧ transitions g' = transitions g ∧ difficulties g' = difficulties g
        ∧ start ∈ states (start_at g' difficulty)
        ∧ keeps_states g g' ∧ only_touches difficulty g g'.
Proof.
  intros Hg. pose proof (add_start_normalized difficulty start g Hg) as Hpost.
  unfold post in Hpost. destruct Hpost as [Hr Hg'].
  exists (add_start difficulty start g).1. split; [by apply injective_projections|].
  split; [done|]. clear Hr Hg'. unfold add_start.
  pose proof (_add_to_distribution_states (default [] (start_positions g !! difficulty)) start)
    as Hst.
  destruct (_add_to_distribution _ start) as [d r]. simpl in *.
  split; [done|]. split; [done|].
  assert (Hat : ∀ d0, start_at {| transitions := transitions g;
                                  start_positions := <[difficulty:=d]> (start_positions g);
                                  difficulties := difficulties g |} d0
                      = if decide (difficulty = d0) then d else start_at g d0).
  { intros d0. unfold start_at. simpl. rewrite lookup_insert. by case_decide. }
  split; [|split; [split|]].
  - rewrite Hat, decide_True by done. apply Hst. by right.
  - intros d0 x Hx. rewrite Hat. case_decide; [|done]. subst. apply Hst. by left.
  - done.
  - intros other Hne. split; [|done]. rewrite Hat. by rewrite decide_False.
Qed.

Lemma add_transition_effect difficulty current next_hold g :
  model_normalized g →
  ∃ g', add_transition difficulty current next_hold g = (g', Returned tt)
        ∧ model_normalized g'
        ∧ start_positions g' = start_positions g ∧ difficulties g' = difficulties g
        ∧ next_hold ∈ states (dist_at g' difficulty current)
        ∧ keeps_states g g' ∧ only_touches difficulty g g'.
Proof.
  intros Hg. pose proof (add_transition_normalized difficulty current next_hold g Hg) as Hpost.
  unfold post in Hpost. destruct Hpost as [Hr Hg'].
  exists (add_transition difficulty current next_hold g).1.
  split; [by apply injective_projections|]. split; [done|]. clear Hr Hg'.
  unfold add_transition. cbv zeta.
  pose proof (_add_to_distribution_states
                (default [] (default ∅ (transitions g !! difficulty) !! current)) next_hold)
    as Hst.
  destruct (_add_to_distribution _ next_hold) as [d r]. simpl in *.
  split; [done|]. split; [done|].
  assert (Hat : ∀ d0 k,
            dist_at {| transitions := <[difficulty:=<[current:=d]>
                                          (default ∅ (transitions g !! difficulty))]>
                                        (transitions g);
                       start_positions := start_positions g;
                       difficulties := difficulties g |} d0 k
            = if decide (difficulty = d0 ∧ current = k) then d else dist_at g d0 k).
  { intros d0 k. unfold dist_at. simpl. rewrite lookup_insert.
    destruct (decide (difficulty = d0)) as [->|Hd]; simpl.
    - rewrite lookup_insert. destruct (decide (current = k)) as [->|Hk].
      + by rewrite decide_True.
      + rewrite decide_False by tauto. done.
    - rewrite decide_False by tauto. done. }
  split; [|split; [split|]].
  - rewrite Hat, decide_True by done. apply Hst. by right.
  - done.
  - intros d0 k x Hx. rewrite Hat. case_decide as Hdk; [|done].
    destruct Hdk as [<- <-]. apply Hst. by left.
  - intros other Hne. split; [done|]. intros k. rewrite Hat. rewrite decide_False; [done|].
    intros [-> _]. done.
Qed.

Lemma add_transitions_effect difficulty moves :
  ∀ g, model_normalized g →
  ∃ g', add_transitions difficulty moves g = (g', Returned tt)
        ∧ model_normalized g'
        ∧ start_positions g' = start_positions g ∧ difficulties g' = difficulties g
        ∧ (∀ i a b, moves !! i = Some a → moves !! S i = Some b →
                    b ∈ states (dist_at g' difficulty a))
        ∧ keeps_states g g' ∧ only_touches difficulty g g'.
Proof.
  induction moves as [|current [|next_hold rest] IH]; intros g Hg.
  - exists g. do 4 (split; [done|]).
    split; [|split; [apply keeps_states_refl|apply only_touches_refl]].
    intros i a b Ha. by rewrite lookup_nil in Ha.
  - exists g. do 4 (split; [done|]).
    split; [|split; [apply keeps_states_refl|apply only_touches_refl]].
    intros [|i] a b Ha Hb; [done|]. by rewrite lookup_cons, lookup_nil in Ha.
  - change (add_transitions difficulty (current :: next_hold :: rest))
      with (bind (add_transition difficulty current next_hold)
                 (λ _, add_transitions difficulty (next_hold :: rest))).
    unfold bind.
    destruct (add_transition_effect difficulty current next_hold g Hg)
      as (g1 & -> & Hg1 & Hs1 & Hd1 & Hin1 & Hk1 & Ho1).
    destruct (IH g1 Hg1) as (g2 & -> & Hg2 & Hs2 & Hd2 & Hpairs & Hk2 & Ho2).
    exists g2. split; [done|]. split; [done|]. split; [congruence|]. split; [congruence|].
    split; [|split; [by eapply keeps_states_trans|by eapply only_touches_trans]].
    intros [|i] a b Ha Hb.
    + injection Ha as <-. injection Hb as <-. by apply Hk2.
    + by apply (Hpairs i).
Qed.

Lemma add_climb_effect difficulty start rest g :
  model_normalized g →
  ∃ g', add_climb difficulty (start :: rest) g = (g', Returned tt)
        ∧ model_normalized g'
        ∧ difficulties g' = (if decide (difficulty ∈ difficulties g) then difficulties g
                             else difficulties g ++ [difficulty])
        ∧ recorded g' difficulty (start :: rest)
        ∧ keeps_states g g' ∧ only_touches difficulty g g'.
Proof.
  intros Hg. unfold add_climb, bind.
  pose proof (register_difficulty_normalized difficulty g Hg) as Hreg. unfold post in Hreg.
  destruct (register_difficulty difficulty g) as [g0 r0] eqn:Ereg. simpl in Hreg.
  destruct Hreg as [-> Hg0].
  assert (Hreg : transitions g0 = transitions g ∧ start_positions g0 = start_positions g
                 ∧ difficulties g0 = (if decide (difficulty ∈ difficulties g) then difficulties g
                                      else difficulties g ++ [difficulty])).
  { unfold register_difficulty, modify in Ereg. injection Ereg as <-. by case_decide. }
  destruct Hreg as (Ht0 & Hs0 & Hd0).
  assert (Hsame : ∀ d0, start_at g0 d0 = start_at g d0 ∧ ∀ k, dist_at g0 d0 k = dist_at g d0 k).
  { intros d0. unfold start_at, dist_at. by rewrite Ht0, Hs0. }
  destruct (add_start_effect difficulty start g0 Hg0)
    as (g1 & -> & Hg1 & Ht1 & Hd1 & Hin1 & Hk1 & Ho1).
  destruct (add_transitions_effect difficulty (start :: rest) g1 Hg1)
    as (g2 & -> & Hg2 & Hs2 & Hd2 & Hpairs & Hk2 & Ho2).
  exists g2. split; [done|]. split; [done|]. split; [congruence|].
  split; [|split].
  - split; [|done]. intros s [= <-]. by apply Hk2.
  - destruct (keeps_states_trans _ _ _ Hk1 Hk2) as [H1 H2]. split.
    + intros d0 x Hx. apply H1. by rewrite (proj1 (Hsame d0)).
    + intros d0 k x Hx. apply H2. by rewrite (proj2 (Hsame d0)).
  - intros other Hne. destruct (only_touches_trans _ _ _ _ Ho1 Ho2 other Hne) as [H1 H2].
    split; [by rewrite H1, (proj1 (Hsame other))|].
    intros k. by rewrite H2, (proj2 (Hsame other)).
Qed.



(** ** Training on a whole corpus *)

Lemma recorded_keeps g g' difficulty moves :
  keeps_states g g' → recorded g difficulty moves → recorded g' difficulty moves.
Proof.
  intros [Hs Ht] [Hstart Hpairs]. split.
  - intros s Hs0. by apply Hs, Hstart.
  - intros i a b Ha Hb. by eapply Ht, Hpairs.
Qed.

Lemma train_on_data_well_formed climbs_data :
  ∀ g, model_normalized g → Forall well_formed climbs_data →
  ∃ g', train_on_data climbs_data g = (g', Returned tt)
        ∧ model_normalized g'
        ∧ keeps_states g g'
        ∧ (∀ d, d ∈ difficulties g' ↔ d ∈ difficulties g ∨ d ∈ labels climbs_data)
        ∧ (NoDup (difficulties g) → NoDup (difficulties g'))
        ∧ (∀ d moves, route d moves ∈ climbs_data → recorded g' d moves).
Proof.
  induction climbs_data as [|c rest IH]; intros g Hg Hwf.
  - exists g. do 2 (split; [done|]). split; [apply keeps_states_refl|].
    split; [|split; [done|]].
    + intros d. unfold labels. simpl. rewrite elem_of_nil. tauto.
    + intros d moves Hin. by apply elem_of_nil in Hin.
  - inversion Hwf as [|? ? (difficulty & start & moves & ->) Hrest]; subst.
    cbn [train_on_data route cd_difficulty cd_climb subscript]. unfold bind at 1 2 3, ret at 1 2.
    destruct (add_climb_effect difficulty start moves g Hg)
      as (g1 & -> & Hg1 & Hd1 & Hrec1 & Hk1 & _).
    destruct (IH g1 Hg1 Hrest) as (g2 & -> & Hg2 & Hk2 & Hd2 & Hnd2 & Hrec2).
    exists g2. do 2 (split; [done|]). split; [by eapply keeps_states_trans|].
    split; [|split].
    + intros d. rewrite Hd2, Hd1. unfold labels. simpl. fold (labels rest).
      rewrite elem_of_cons. case_decide as Hin.
      * split; [tauto|]. intros [H|[->|H]]; tauto.
      * rewrite elem_of_app, list_elem_of_singleton. tauto.
    + intros Hnd. apply Hnd2. rewrite Hd1. case_decide as Hin; [done|].
      apply NoDup_app. split; [done|]. split; [|apply NoDup_singleton].
      intros x Hx ->%list_elem_of_singleton. done.
    + intros d moves' Hin. apply elem_of_cons in Hin as [Heq|Hin]; [|by apply Hrec2].
      injection Heq as -> ->. by eapply recorded_keeps.
Qed.

Lemma labels_well_formed climbs_data d :
  Forall well_formed climbs_data → d ∈ labels climbs_data →
  ∃ start rest, route d (start :: rest) ∈ climbs_data.
Proof.
  intros Hwf. unfold labels. rewrite list_elem_of_omap. intros (c & Hc & Hd).
  rewrite Forall_forall in Hwf. destruct (Hwf c Hc) as (d' & start & rest & ->).
  simpl in Hd. injection Hd as ->. by exists start, rest.
Qed.

(** X4.  A corpus whose records all have both fields and at least one hold is
    trained on in full: [train_on_data] returns normally on the fresh
    generator, the registered difficulties are exactly the labels of the
    corpus, each registered once, and every registered difficulty has a
    non-empty start distribution of total weight one. *)
Theorem X_well_formed_corpus_trains (climbs_data : list ClimbData) :
  Forall well_formed climbs_data →
  ∃ g, train_on_data climbs_data init = (g, Returned tt)
       ∧ NoDup (difficulties g)
       ∧ (∀ d, d ∈ difficulties g ↔ d ∈ labels climbs_data)
       ∧ (∀ d, d ∈ difficulties g →
               start_at g d ≠ [] ∧ (total_weight (start_at g d) == 1)%Q).
Proof.
  intros Hwf.
  destruct (train_on_data_well_formed climbs_data init model_normalized_init Hwf)
    as (g & E & Hg & _ & Hd & Hnd & Hrec).
  exists g. split; [done|]. split; [apply Hnd, NoDup_nil_2|].
  assert (Hlabels : ∀ d, d ∈ difficulties g ↔ d ∈ labels climbs_data).
  { intros d. rewrite Hd. simpl. rewrite elem_of_nil. tauto. }
  split; [done|]. intros d Hin. apply Hlabels in Hin.
  destruct (labels_well_formed _ _ Hwf Hin) as (start & rest & Hroute).
  destruct (Hrec _ _ Hroute) as [Hstart _]. specialize (Hstart start eq_refl).
  assert (Hne : start_at g d ≠ []).
  { intros Hnil. rewrite Hnil in Hstart. by apply elem_of_nil in Hstart. }
  split; [done|].
  destruct (model_normalized_start g d Hg) as [_ _ [Hnil|Htot]]; [|done].
  by destruct Hne.
Qed.

Lemma X_well_formed_corpus_trains_witness :
  ∃ g, train_on_data two_starts_corpus init = (g, Returned tt)
       ∧ NoDup (difficulties g)
       ∧ (∀ d, d ∈ difficulties g ↔ d ∈ labels two_starts_corpus)
       ∧ (∀ d, d ∈ difficulties g →
               start_at g d ≠ [] ∧ (total_weight (start_at g d) == 1)%Q).
Proof.
  apply (X_well_formed_corpus_trains two_starts_corpus).
  repeat constructor; eexists _, _, _; reflexivity.
Defined.

(** X5.  Training round trip.  After training the fresh generator on such a
    corpus, every route of the corpus is recorded by the model: its first
    hold is listed by the start distribution of its difficulty, and each
    later hold by the transition distribution of the hold before it. *)
Theorem X_trained_model_records_corpus
    (climbs_data : list ClimbData) (difficulty : string) (moves : list Hold) :
  Forall well_formed climbs_data →
  route difficulty moves ∈ climbs_data →
  recorded (trained climbs_data) difficulty moves.
Proof.
  intros Hwf Hin.
  destruct (train_on_data_well_formed climbs_data init model_normalized_init Hwf)
    as (g & E & _ & _ & _ & _ & Hrec).
  unfold trained. rewrite E. by apply Hrec.
Qed.

Lemma X_trained_model_records_corpus_witness :
  recorded (trained two_starts_corpus) V0 [hA; hC].
Proof.
  apply (X_trained_model_records_corpus two_starts_corpus V0 [hA; hC]).
  - repeat constructor; eexists _, _, _; reflexivity.
  - right. left.
Defined.

Lemma add_climb_single_hold_transitions difficulty h g :
  transitions (add_climb difficulty [h] g).1 = transitions g.
Proof.
  unfold add_climb, bind, register_difficulty, modify, add_start. simpl.
  destruct (_add_to_distribution _ h) as [d [[]|e]]; simpl; by case_decide.
Qed.

Lemma train_on_data_single_hold climbs_data :
  ∀ g, Forall single_hold climbs_data →
       transitions (train_on_data climbs_data g).1 = transitions g.
Proof.
  induction climbs_data as [|c rest IH]; intros g Hall; [done|].
  inversion Hall as [|? ? (difficulty & h & ->) Hrest]; subst.
  cbn [train_on_data route cd_difficulty cd_climb subscript]. unfold bind at 1 2 3, ret at 1 2.
  pose proof (add_climb_single_hold_transitions difficulty h g) as Ht.
  destruct (add_climb difficulty [h] g) as [g1 [[]|e]]; simpl in *; [|done].
  by rewrite IH.
Qed.

(** X6.  A corpus of one-hold routes stores no transition: training the fresh
    generator on it leaves the transitions table empty. *)
Theorem X_single_hold_corpus_no_transitions (climbs_data : list ClimbData) :
  Forall single_hold climbs_data →
  transitions (trained climbs_data) = ∅.
Proof. intros Hall. unfold trained. by rewrite train_on_data_single_hold. Qed.

Lemma X_single_hold_corpus_no_transitions_witness :
  transitions (trained one_hold_corpus) = ∅.
Proof.
  apply (X_single_hold_corpus_no_transitions one_hold_corpus).
  repeat constructor. by exists V0, hA.
Defined.

(** ** The pairwise validator *)

(** X7.  The validator does not depend on the direction of the move nor on the
    roles of the two holds. *)
Theorem X_validator_symmetric (x1 y1 r1 x2 y2 r2 r1' r2' : Z) :
  _is_valid_transition (x1, y1, r1) (x2, y2, r2)
  = _is_valid_transition (x2, y2, r2') (x1, y1, r1').
Proof.
  unfold _is_valid_transition.
  replace ((x1 - x2) ^ 2 + (y1 - y2) ^ 2) with ((x2 - x1) ^ 2 + (y2 - y1) ^ 2) by ring.
  replace (Z.abs (y1 - y2)) with (Z.abs (y2 - y1)) by lia. done.
Qed.

Lemma square_bounds (d lo hi : Z) :
  0 ≤ lo → 0 ≤ hi → (lo ^ 2 ≤ d ^ 2 ≤ hi ^ 2 ↔ lo ≤ Z.abs d ≤ hi).
Proof.
  intros Hlo Hhi. rewrite !Z.pow_2_r, <- (Z.abs_square d).
  pose proof (Z.abs_nonneg d). split; intros [H1 H2]; split; nia.
Qed.

(** X8.  Straight moves.  Between two holds in the same column the validator
    accepts exactly the vertical moves of 8 to 40 units (the reach of 50 is
    never the binding limit), and between two holds at the same height
    exactly the horizontal moves of 8 to 50 units. *)
Theorem X_validator_straight_moves (x y d r1 r2 : Z) :
  (_is_valid_transition (x, y, r1) (x, y + d, r2) = true ↔ 8 ≤ Z.abs d ≤ 40)
  ∧ (_is_valid_transition (x, y, r1) (x + d, y, r2) = true ↔ 8 ≤ Z.abs d ≤ 50).
Proof.
  unfold _is_valid_transition. split.
  - replace (x - x) with 0 by lia. replace (y + d - y) with d by lia.
    pose proof (square_bounds d 8 50). pose proof (square_bounds d 8 40).
    destruct (8 ^ 2 <=? 0 ^ 2 + d ^ 2) eqn:E1, (0 ^ 2 + d ^ 2 <=? 50 ^ 2) eqn:E2,
             (40 <? Z.abs d) eqn:E3; simpl;
      rewrite ?Z.leb_le, ?Z.leb_gt, ?Z.ltb_lt, ?Z.ltb_ge in *;
      (split; [try done|intros ?]); try lia.
  - replace (y - y) with 0 by lia. replace (x + d - x) with d by lia.
    pose proof (square_bounds d 8 50).
    destruct (8 ^ 2 <=? d ^ 2 + 0 ^ 2) eqn:E1, (d ^ 2 + 0 ^ 2 <=? 50 ^ 2) eqn:E2,
             (40 <? Z.abs 0) eqn:E3; simpl;
      rewrite ?Z.leb_le, ?Z.leb_gt, ?Z.ltb_lt, ?Z.ltb_ge in *;
      (split; [try done|intros ?]); try lia.
Qed.

(** ** The paired-hold check *)

Lemma filter_role_snoc role climb h :
  filter (λ h, hold_role h = role) (climb ++ [h])
  = filter (λ h, hold_role h = role) climb ++ (if decide (hold_role h = role) then [h] else []).
Proof. rewrite filter_app, filter_cons, filter_nil. by case_decide. Qed.

Lemma paired_distance_snoc role climb h :
  hold_role h = role →
  _find_paired_hold_distance (climb ++ [h]) role
  = match filter (λ h, hold_role h = role) climb with
    | [h0] => Some (distance_sq h0 h)
    | _ => None
    end.
Proof.
  intros Hr. unfold _find_paired_hold_distance. rewrite filter_role_snoc, decide_True by done.
  by destruct (filter _ climb) as [|h0 [|h1 [|h2 l]]].
Qed.

Lemma exceeds_wingspan_Some d2 :
  exceeds_wingspan (Some d2) = true ↔ 2500 < d2.
Proof.
  unfold exceeds_wingspan, MAX_WINGSPAN. rewrite andb_true_iff, negb_true_iff, Z.eqb_neq, Z.ltb_lt.
  change (50 ^ 2) with 2500. lia.
Qed.

Lemma _is_valid_paired_holds_false (climb : list Hold) (new_hold : Hold) :
  _is_valid_paired_holds climb new_hold = false
  ↔ (hold_role new_hold = START_ROLE ∨ hold_role new_hold = FINISH_ROLE)
    ∧ ∃ h0, filter (λ h, hold_role h = hold_role new_hold) climb = [h0]
            ∧ 50 ^ 2 < distance_sq h0 new_hold.
Proof.
  unfold _is_valid_paired_holds. change (50 ^ 2) with 2500.
  destruct (hold_role new_hold =? START_ROLE) eqn:E5; simpl.
  - apply Z.eqb_eq in E5. rewrite (paired_distance_snoc START_ROLE) by done.
    assert ((hold_role new_hold =? FINISH_ROLE) = false) as ->
      by (apply Z.eqb_neq; rewrite E5; done).
    simpl. rewrite E5.
    destruct (filter _ climb) as [|h0 [|h1 l]] eqn:Ef.
    + simpl. split; [done|]. by intros (_ & h0 & ? & _).
    + destruct (exceeds_wingspan (Some (distance_sq h0 new_hold))) eqn:Ex.
      * apply exceeds_wingspan_Some in Ex. split; [|done]. intros _. split; [by left|].
        by exists h0.
      * split; [done|]. intros (_ & h0' & [= <-] & Hd).
        apply exceeds_wingspan_Some in Hd. congruence.
    + simpl. split; [done|]. by intros (_ & h0' & ? & _).
  - destruct (hold_role new_hold =? FINISH_ROLE) eqn:E7; simpl.
    + apply Z.eqb_eq in E7. rewrite (paired_distance_snoc FINISH_ROLE) by done. rewrite E7.
      destruct (filter _ climb) as [|h0 [|h1 l]] eqn:Ef.
      * simpl. split; [done|]. by intros (_ & h0 & ? & _).
      * destruct (exceeds_wingspan (Some (distance_sq h0 new_hold))) eqn:Ex.
        -- apply exceeds_wingspan_Some in Ex. split; [|done]. intros _. split; [by right|].
           by exists h0.
        -- split; [done|]. intros (_ & h0' & [= <-] & Hd).
           apply exceeds_wingspan_Some in Hd. congruence.
      * simpl. split; [done|]. by intros (_ & h0' & ? & _).
    + apply Z.eqb_neq in E5, E7. split; [done|]. intros ([?|?] & _); done.
Qed.

(** X9.  When the paired-hold check rejects.  A candidate is rejected exactly when
    it is a START or FINISH hold, the climb so far has exactly one hold of
    that role, and that hold is more than 50 units away.  A climb that holds
    none or already two or more of the role never makes the check fail. *)
Theorem X_paired_check_rejects (climb : list Hold) (new_hold : Hold) :
  _is_valid_paired_holds climb new_hold = false
  ↔ (hold_role new_hold = START_ROLE ∨ hold_role new_hold = FINISH_ROLE)
    ∧ ∃ h0, filter (λ h, hold_role h = hold_role new_hold) climb = [h0]
            ∧ 50 ^ 2 < distance_sq h0 new_hold.
Proof. apply _is_valid_paired_holds_false. Qed.

(** ** The sampler: dead ends, draws and filters *)

(** X10.  When the sampler gives up.  It never raises and never touches the model;
    it returns [None] exactly when no entry passes the constraints or the
    entries that pass have total weight zero; and it consumes one random
    draw when it returns a hold and none when it returns [None]. *)
Theorem X_sampler_dead_ends_and_draws
    (rnd : nat → Q) (distribution : list Entry) (current_climb : list Hold)
    (role_counts : gmap Z Z) (s : Session) :
  let valid_holds := filter (λ e, passes_constraints current_climb role_counts e = true)
                            distribution in
  let run := _select_from_distribution rnd distribution current_climb role_counts in
  model (state_after run s) = model s
  ∧ (outcome_of run s = Returned None
     ↔ valid_holds = [] ∨ (total_weight valid_holds == 0)%Q)
  ∧ ∃ o, outcome_of run s = Returned o
         ∧ draws (state_after run s)
           = (draws s + match o with Some _ => 1 | None => 0 end)%nat.
Proof.
  cbv zeta. unfold outcome_of, state_after, _select_from_distribution.
  destruct distribution as [|e0 dist0].
  { simpl. split; [done|]. split; [by split; [left|]|]. exists None. split; [done|]. lia. }
  set (valid_holds := filter _ (e0 :: dist0)).
  destruct (last valid_holds) as [last_valid|] eqn:Elast.
  2:{ apply last_None in Elast. simpl. split; [done|]. split; [by split; [left|]|].
      exists None. split; [done|]. lia. }
  assert (Hne : valid_holds ≠ []) by (intros H; rewrite H in Elast; done).
  destruct (Qeq_bool (total_weight valid_holds) 0) eqn:Ez.
  { apply Qeq_bool_iff in Ez. simpl. split; [done|]. split; [by split; [right|]|].
    exists None. split; [done|]. lia. }
  assert (Hnz : ¬ (total_weight valid_holds == 0)%Q).
  { intros H. apply Qeq_bool_iff in H. congruence. }
  unfold bind, np_random. cbn [fst snd].
  destruct (roulette _ 0 valid_holds) as [h|]; cbn [ret fst snd model draws].
  - split; [done|]. split; [split; [done|tauto]|]. exists (Some h). split; [done|]. lia.
  - split; [done|]. split; [split; [done|tauto]|]. eexists (Some _). split; [done|]. lia.
Qed.

(** X11.  What the sampler's result satisfies.  A hold the sampler returns is at
    most 8 units below the last hold of the climb (below 0 for an empty
    climb); if it is a foothold it is not above height 32; if it is a START
    or FINISH hold, fewer than two holds of that role were counted; and it
    passes the paired-hold check. *)
Theorem X_sampler_result_passes_filters
    (rnd : nat → Q) (distribution : list Entry) (current_climb : list Hold)
    (role_counts : gmap Z Z) (s : Session) (h : Hold) :
  outcome_of (_select_from_distribution rnd distribution current_climb role_counts) s
  = Returned (Some h) →
  current_y_of current_climb - 8 ≤ hold_y h
  ∧ (hold_role h = FOOTHOLD_ROLE → hold_y h ≤ FOOTHOLD_MAX_Y)
  ∧ (hold_role h = START_ROLE → count_of role_counts START_ROLE < 2)
  ∧ (hold_role h = FINISH_ROLE → count_of role_counts FINISH_ROLE < 2)
  ∧ _is_valid_paired_holds current_climb h = true.
Proof.
  unfold outcome_of. intros Hr.
  destruct (_select_from_distribution_spec rnd distribution current_climb role_counts s)
    as (_ & o & Ho & Hsel).
  rewrite Hr in Ho. injection Ho as <-.
  destruct (Hsel h eq_refl) as (e & _ & <- & Hp).
  split; [by eapply passes_constraints_vertical|].
  destruct e as [[[x y] role] prob]. unfold passes_constraints in Hp.
  unfold entry_state, hold_role, hold_y. simpl.
  destruct (y <? _); [done|].
  destruct ((role =? FOOTHOLD_ROLE) && (FOOTHOLD_MAX_Y <? y)) eqn:E8; [done|].
  destruct ((role =? START_ROLE) && (2 <=? count_of role_counts role)) eqn:E5; [done|].
  destruct ((role =? FINISH_ROLE) && (2 <=? count_of role_counts role)) eqn:E7; [done|].
  destruct (_is_valid_paired_holds current_climb (x, y, role)) eqn:Ep; [|done].
  apply andb_false_iff in E8, E5, E7.
  rewrite Z.eqb_neq, ?Z.ltb_ge, ?Z.leb_gt in E8, E5, E7.
  repeat split; intros Hrole; subst role; lia.
Qed.

Lemma X_sampler_result_passes_filters_witness :
  current_y_of [hA] - 8 ≤ hold_y hB
  ∧ (hold_role hB = FOOTHOLD_ROLE → hold_y hB ≤ FOOTHOLD_MAX_Y)
  ∧ (hold_role hB = START_ROLE → count_of {[ 5 := 1 ]} START_ROLE < 2)
  ∧ (hold_role hB = FINISH_ROLE → count_of {[ 5 := 1 ]} FINISH_ROLE < 2)
  ∧ _is_valid_paired_holds [hA] hB = true.
Proof.
  apply (X_sampler_result_passes_filters rnd_zero (dist_at (trained two_starts_corpus) V0 hA)
           [hA] {[ 5 := 1 ]} (mkSession init 0) hB).
  vm_compute. reflexivity.
Defined.

(** ** Invariants of the route under construction *)

Section RouteInvariant.

(** A property of climbs that holds of the empty climb and is kept when a
    hold that passed the sampler's constraints is appended. *)
Variable Inv : list Hold → Prop.
Hypothesis Inv_nil : Inv [].
Hypothesis Inv_snoc : ∀ climb role_counts e,
  counts_agree role_counts climb → Inv climb →
  passes_constraints climb role_counts e = true →
  Inv (climb ++ [entry_state e]).

Variable rnd : nat → Q.

Lemma Inv_selected climb role_counts (distribution : list Entry) h :
  counts_agree role_counts climb → Inv climb →
  (∃ e, e ∈ distribution ∧ entry_state e = h
        ∧ passes_constraints climb role_counts e = true) →
  Inv (climb ++ [h]).
Proof. intros Hc HI (e & _ & <- & Hp). by eapply Inv_snoc. Qed.

Lemma generate_moves_invariant difficulty min_moves remaining :
  ∀ current climb role_counts s,
    counts_agree role_counts climb → Inv climb →
    post (generate_moves rnd remaining difficulty min_moves current climb role_counts) s
         (λ _ r, ∃ climb' role_counts',
                   r = Returned (climb', role_counts')
                   ∧ counts_agree role_counts' climb' ∧ Inv climb').
Proof.
  induction remaining as [|remaining IH]; intros current climb role_counts s Hc HI.
  { by exists climb, role_counts. }
  cbn [generate_moves]. apply post_bind, post_read_transitions. intros s1 _.
  apply post_bind, post_select. intros s2 [h|] _ Hsel; [|by exists climb, role_counts].
  destruct (_is_valid_transition current h); [|by exists climb, role_counts]. cbn [negb].
  pose proof (counts_agree_snoc _ _ h Hc) as Hc'.
  pose proof (Inv_selected _ _ _ _ Hc HI (Hsel h eq_refl)) as HI'.
  destruct (may_finish _ _ _); [by eexists _, _|]. by apply IH.
Qed.

Lemma second_start_hold_invariant difficulty start climb role_counts s :
  counts_agree role_counts climb → Inv climb →
  post (second_start_hold rnd difficulty start climb role_counts) s
       (λ _ r, ∃ climb' role_counts',
                 r = Returned (climb', role_counts')
                 ∧ counts_agree role_counts' climb' ∧ Inv climb').
Proof.
  intros Hc HI. unfold second_start_hold. apply post_bind.
  unfold post at 1, np_random. cbn [fst snd].
  destruct (negb _); [|by exists climb, role_counts].
  apply post_bind, post_read_transitions. intros s1 _.
  apply post_bind, post_select. intros s2 [h|] _ Hsel; [|by exists climb, role_counts].
  destruct (hold_role h =? START_ROLE); [|by exists climb, role_counts].
  eexists _, _. split; [done|]. split; [by apply counts_agree_snoc|].
  exact (Inv_selected _ _ _ _ Hc HI (Hsel h eq_refl)).
Qed.

Lemma attempts_invariant difficulty min_moves max_moves remaining :
  ∀ s, post (attempts rnd remaining difficulty min_moves max_moves) s
            (λ _ r, ∃ o, r = Returned o ∧ ∀ climb, o = Some climb → Inv climb).
Proof.
  induction remaining as [|remaining IH]; intros s.
  { by exists None. }
  cbn [attempts]. apply post_bind, post_read_start_positions. intros s1 _.
  apply post_bind, post_select. intros s2 [start|] _ Hsel; [|by apply IH].
  pose proof (counts_agree_snoc _ _ start counts_agree_nil) as Hc.
  pose proof (Inv_selected _ _ _ _ counts_agree_nil Inv_nil (Hsel start eq_refl)) as HI.
  apply post_bind. eapply post_mono; [by apply second_start_hold_invariant|].
  intros s3 r (climb3 & rc3 & -> & Hc3 & HI3).
  apply post_bind. eapply post_mono; [by apply generate_moves_invariant|].
  intros s4 r (climb4 & rc4 & -> & Hc4 & HI4).
  destruct (is_complete _ _ _ _); [|by apply IH].
  eexists. split; [done|]. by intros climb [= <-].
Qed.

Lemma generate_climb_invariant difficulty min_moves max_moves max_attempts s climb :
  outcome_of (generate_climb rnd difficulty min_moves max_moves max_attempts) s
  = Returned (Some climb) →
  Inv climb.
Proof.
  unfold outcome_of, generate_climb, bind, get. cbn [fst snd].
  case_decide; [|done]. intros Hr.
  pose proof (attempts_invariant difficulty min_moves max_moves (Z.to_nat max_attempts) s)
    as Hpost.
  unfold post in Hpost. destruct Hpost as (o & Ho & Hinv). rewrite Hr in Ho. injection Ho as <-.
  by apply Hinv.
Qed.

End RouteInvariant.

(** ** Constraints met by every returned route *)

(** X12.  Foothold ceiling.  No foothold of a returned route is above height 32. *)
Theorem X_route_footholds_capped
    (rnd : nat → Q) (difficulty : string) (min_moves max_moves max_attempts : Z)
    (s : Session) (climb : list Hold) :
  outcome_of (generate_climb rnd difficulty min_moves max_moves max_attempts) s
  = Returned (Some climb) →
  footholds_capped climb.
Proof.
  intros Hr.
  refine (generate_climb_invariant footholds_capped _ _ rnd _ _ _ _ s climb Hr).
  - constructor.
  - intros c rc e _ Hc Hp. apply Forall_app. split; [done|]. constructor; [|constructor].
    destruct e as [[[x y] role] prob]. unfold passes_constraints in Hp.
    unfold entry_state, hold_role, hold_y. simpl. intros ->.
    destruct (y <? _); [done|]. simpl in Hp.
    destruct (FOOTHOLD_MAX_Y <? y) eqn:E; [done|]. by apply Z.ltb_ge in E.
Qed.

Lemma X_route_footholds_capped_witness : footholds_capped [hA; hB; hC].
Proof.
  apply (X_route_footholds_capped rnd_zero V0 3 20 100
           (mkSession (trained two_starts_corpus) 0)).
  vm_compute. reflexivity.
Defined.

Lemma current_y_of_lookup climb i p :
  climb !! i = Some p → S i = length climb → current_y_of climb = hold_y p.
Proof.
  intros Hp Hlen. unfold current_y_of. rewrite last_lookup, <- Hlen. simpl. by rewrite Hp.
Qed.

(** X13.  Vertical progression.  In a returned route the first hold is at height
    -8 or more and every hold, the optional second start hold included, is
    at most 8 units below the hold right before it. *)
Theorem X_route_no_big_drop
    (rnd : nat → Q) (difficulty : string) (min_moves max_moves max_attempts : Z)
    (s : Session) (climb : list Hold) :
  outcome_of (generate_climb rnd difficulty min_moves max_moves max_attempts) s
  = Returned (Some climb) →
  no_big_drop climb.
Proof.
  intros Hr. refine (generate_climb_invariant no_big_drop _ _ rnd _ _ _ _ s climb Hr).
  - split; [done|]. intros i p h Hp. by rewrite lookup_nil in Hp.
  - intros c rc e _ [Hhead Hpairs] Hp. apply passes_constraints_vertical in Hp. split.
    + intros h. rewrite head_snoc. destruct (head c) as [h0|] eqn:Eh.
      * intros [= <-]. by apply Hhead.
      * intros [= <-]. destruct c; [|done]. exact Hp.
    + intros i p h Hi HSi. apply lookup_snoc_Some in HSi as [[Hlt HSi]|[Hlen <-]].
      * apply lookup_snoc_Some in Hi as [[_ Hi]|[Hlen _]]; [|lia]. by eapply Hpairs.
      * apply lookup_snoc_Some in Hi as [[_ Hi]|[Hlen' _]]; [|lia].
        by rewrite <- (current_y_of_lookup c i p Hi Hlen).
Qed.

Lemma X_route_no_big_drop_witness : no_big_drop [hA; hB; hC].
Proof.
  apply (X_route_no_big_drop rnd_zero V0 3 20 100 (mkSession (trained two_starts_corpus) 0)).
  vm_compute. reflexivity.
Defined.

Lemma pair_within_wingspan_snoc role climb role_counts e :
  role = START_ROLE ∨ role = FINISH_ROLE →
  pair_within_wingspan role climb →
  passes_constraints climb role_counts e = true →
  pair_within_wingspan role (climb ++ [entry_state e]).
Proof.
  intros Hrole Hpair Hp h0 h1. rewrite filter_role_snoc.
  destruct (decide (hold_role (entry_state e) = role)) as [Heq|Hne].
  2:{ rewrite app_nil_r. apply Hpair. }
  intros Hf.
  assert (Hvalid : _is_valid_paired_holds climb (entry_state e) = true).
  { destruct e as [[[x y] r] prob]. unfold passes_constraints in Hp.
    unfold entry_state. simpl.
    destruct (y <? _); [done|]. destruct (_ && _); [done|]. destruct (_ && _); [done|].
    destruct (_ && _); [done|]. by destruct (_is_valid_paired_holds climb (x, y, r)). }
  destruct (decide (distance_sq h0 h1 ≤ MAX_WINGSPAN ^ 2)) as [|Hfar]; [done|].
  assert (Hrej : _is_valid_paired_holds climb (entry_state e) = false); [|congruence].
  apply _is_valid_paired_holds_false. rewrite Heq. split; [done|].
  destruct (filter _ climb) as [|a [|b l]] eqn:Ef; simpl in Hf; try done.
  - injection Hf as -> ->. exists h0. split; [done|]. unfold MAX_WINGSPAN in Hfar. lia.
  - by destruct l.
Qed.

(** X14.  Paired holds.  If a returned route has exactly two START holds they are
    at most 50 units apart, and likewise for its FINISH holds. *)
Theorem X_route_pairs_within_wingspan
    (rnd : nat → Q) (difficulty : string) (min_moves max_moves max_attempts : Z)
    (s : Session) (climb : list Hold) :
  outcome_of (generate_climb rnd difficulty min_moves max_moves max_attempts) s
  = Returned (Some climb) →
  pair_within_wingspan START_ROLE climb ∧ pair_within_wingspan FINISH_ROLE climb.
Proof.
  intros Hr.
  refine (generate_climb_invariant
            (λ c, pair_within_wingspan START_ROLE c ∧ pair_within_wingspan FINISH_ROLE c)
            _ _ rnd _ _ _ _ s climb Hr).
  - by split; intros h0 h1.
  - intros c rc e _ [H5 H7] Hp.
    split; eapply pair_within_wingspan_snoc; eauto.
Qed.

Lemma X_route_pairs_within_wingspan_witness :
  pair_within_wingspan START_ROLE [hA; hB; hC]
  ∧ pair_within_wingspan FINISH_ROLE [hA; hB; hC].
Proof.
  apply (X_route_pairs_within_wingspan rnd_zero V0 3 20 100
           (mkSession (trained two_starts_corpus) 0)).
  vm_compute. reflexivity.
Defined.

(** ** When generation cannot succeed *)

Lemma generate_climb_returned rnd difficulty min_moves max_moves max_attempts s climb :
  outcome_of (generate_climb rnd difficulty min_moves max_moves max_attempts) s
  = Returned (Some climb) →
  complete_route min_moves max_moves climb ∧ route_shape (model s) difficulty climb.
Proof.
  unfold outcome_of. intros Hr.
  destruct (generate_climb_spec rnd difficulty min_moves max_moves max_attempts s) as [_ H].
  case_decide; [|destruct H as [_ H]; congruence].
  destruct H as (o & Ho & Hc). rewrite Hr in Ho. injection Ho as <-. by apply Hc.
Qed.

Lemma generate_climb_registered rnd difficulty min_moves max_moves max_attempts s :
  difficulty ∈ difficulties (model s) →
  (∀ climb, outcome_of (generate_climb rnd difficulty min_moves max_moves max_attempts) s
            ≠ Returned (Some climb)) →
  outcome_of (generate_climb rnd difficulty min_moves max_moves max_attempts) s
  = Returned None.
Proof.
  unfold outcome_of. intros Hd Hno.
  destruct (generate_climb_spec rnd difficulty min_moves max_moves max_attempts s) as [_ H].
  rewrite decide_True in H by done. destruct H as ([climb|] & Ho & _); [|done].
  by destruct (Hno climb).
Qed.

Lemma chain_stored g difficulty rest :
  ∀ current, chain (sampled_step g difficulty) current rest →
             ∀ h, h ∈ rest → ∃ p, h ∈ states (dist_at g difficulty p).
Proof.
  induction rest as [|x rest IH]; intros current Hch h Hh; [by apply elem_of_nil in Hh|].
  destruct Hch as [[Hx _] Hch]. apply elem_of_cons in Hh as [->|Hh]; [by exists current|].
  by eapply IH.
Qed.

Lemma route_shape_stored g difficulty climb h :
  route_shape g difficulty climb → h ∈ climb →
  h ∈ states (start_at g difficulty) ∨ ∃ p, h ∈ states (dist_at g difficulty p).
Proof.
  intros (start & second & rest & -> & Hstart & Hsecond & Hchain) Hh.
  apply elem_of_cons in Hh as [->|Hh]; [by left|]. right.
  apply elem_of_app in Hh as [Hh|Hh]; [|by eapply chain_stored].
  destruct Hsecond as [->|(h2 & -> & _ & Hin)]; [by apply elem_of_nil in Hh|].
  apply list_elem_of_singleton in Hh as ->. by exists start.
Qed.

Lemma role_count_pos role climb :
  1 ≤ role_count role climb → ∃ h, h ∈ climb ∧ hold_role h = role.
Proof.
  unfold role_count. destruct (filter _ climb) as [|h l] eqn:Ef; simpl; [lia|]. intros _.
  assert (Hin : h ∈ filter (λ h, hold_role h = role) climb) by (rewrite Ef; left).
  apply list_elem_of_filter in Hin as [Hr Hin]. by exists h.
Qed.

(** X15.  A route can only be returned for a difficulty whose stored states
    include a START hold and a FINISH hold: a corpus without either role
    never yields a route. *)
Theorem X_route_needs_start_and_finish_states
    (rnd : nat → Q) (difficulty : string) (min_moves max_moves max_attempts : Z)
    (s : Session) (climb : list Hold) :
  outcome_of (generate_climb rnd difficulty min_moves max_moves max_attempts) s
  = Returned (Some climb) →
  stores_role (model s) difficulty START_ROLE
  ∧ stores_role (model s) difficulty FINISH_ROLE.
Proof.
  intros Hr. destruct (generate_climb_returned _ _ _ _ _ _ _ Hr) as [(_ & H5 & H7) Hshape].
  split.
  - destruct (role_count_pos START_ROLE climb) as (h & Hin & Hrole); [lia|].
    exists h. split; [done|]. by eapply route_shape_stored.
  - destruct (role_count_pos FINISH_ROLE climb) as (h & Hin & Hrole); [lia|].
    exists h. split; [done|]. by eapply route_shape_stored.
Qed.

Lemma X_route_needs_start_and_finish_states_witness :
  stores_role (trained two_starts_corpus) V0 START_ROLE
  ∧ stores_role (trained two_starts_corpus) V0 FINISH_ROLE.
Proof.
  apply (X_route_needs_start_and_finish_states rnd_zero V0 3 20 100
           (mkSession (trained two_starts_corpus) 0) [hA; hB; hC]).
  vm_compute. reflexivity.
Defined.

(** X16.  Dead transitions.  For a registered difficulty none of whose transition
    distributions lists a state (as after training on one-hold routes only),
    a request for at least two moves always returns [None]. *)
Theorem X_no_transitions_no_route
    (rnd : nat → Q) (difficulty : string) (min_moves max_moves max_attempts : Z)
    (s : Session) :
  difficulty ∈ difficulties (model s) →
  (∀ current, dist_at (model s) difficulty current = []) →
  2 ≤ min_moves →
  outcome_of (generate_climb rnd difficulty min_moves max_moves max_attempts) s
  = Returned None.
Proof.
  intros Hd Hempty Hmin. apply generate_climb_registered; [done|]. intros climb Hr.
  destruct (generate_climb_returned _ _ _ _ _ _ _ Hr)
    as [([Hlen _] & _) (start & second & rest & -> & _ & Hsecond & Hchain)].
  assert (second = []) as ->.
  { destruct Hsecond as [->|(h & _ & _ & Hin)]; [done|].
    rewrite Hempty in Hin. by apply elem_of_nil in Hin. }
  assert (rest = []) as ->.
  { destruct rest as [|h rest]; [done|]. destruct Hchain as [[Hin _] _].
    rewrite Hempty in Hin. by apply elem_of_nil in Hin. }
  simpl in Hlen. lia.
Qed.

Lemma X_no_transitions_no_route_witness :
  outcome_of (generate_climb rnd_zero V0 2 20 100) (mkSession (trained one_hold_corpus) 0)
  = Returned None.
Proof.
  apply X_no_transitions_no_route.
  - vm_compute. left.
  - intros current. unfold dist_at, trained. cbn [model].
    rewrite train_on_data_single_hold; [done|]. repeat constructor. by exists V0, hA.
  - lia.
Defined.

(** X17.  Unsatisfiable bounds.  For a registered difficulty, a request with
    [max_moves] below [min_moves], with [max_moves] below one, or with no
    attempt allowed returns [None]. *)
Theorem X_unsatisfiable_bounds_return_none
    (rnd : nat → Q) (difficulty : string) (min_moves max_moves max_attempts : Z)
    (s : Session) :
  difficulty ∈ difficulties (model s) →
  max_moves < min_moves ∨ max_moves < 1 ∨ max_attempts ≤ 0 →
  outcome_of (generate_climb rnd difficulty min_moves max_moves max_attempts) s
  = Returned None.
Proof.
  intros Hd Hbounds. apply generate_climb_registered; [done|]. intros climb Hr.
  destruct Hbounds as [Hlt|[Hlt|Hatt]].
  - destruct (generate_climb_returned _ _ _ _ _ _ _ Hr) as [([H1 H2] & _) _]. lia.
  - destruct (generate_climb_returned _ _ _ _ _ _ _ Hr)
      as [([H1 H2] & _) (start & second & rest & -> & _)]. simpl in H2. lia.
  - unfold outcome_of, generate_climb, bind, get in Hr. cbn [fst snd] in Hr.
    rewrite decide_True in Hr by done.
    replace (Z.to_nat max_attempts) with 0%nat in Hr by lia. done.
Qed.

Lemma X_unsatisfiable_bounds_return_none_witness :
  outcome_of (generate_climb rnd_zero V0 8 4 100) (mkSession (trained two_starts_corpus) 0)
  = Returned None.
Proof.
  apply X_unsatisfiable_bounds_return_none.
  - vm_compute. left.
  - left. lia.
Defined.

(** ** The number of random draws *)

Lemma select_draws rnd distribution current_climb role_counts s :
  post (_select_from_distribution rnd distribution current_climb role_counts) s
       (λ s' _, (draws s ≤ draws s' ≤ draws s + 1)%nat).
Proof.
  unfold _select_from_distribution, post.
  destruct distribution as [|e0 dist0]; [simpl; lia|].
  destruct (last _) as [last_valid|]; [|simpl; lia].
  destruct (Qeq_bool _ 0); [simpl; lia|].
  unfold bind, np_random. cbn [fst snd].
  destruct (roulette _ _ _); simpl; lia.
Qed.

Lemma generate_moves_draws rnd difficulty min_moves remaining :
  ∀ current climb role_counts s,
    post (generate_moves rnd remaining difficulty min_moves current climb role_counts) s
         (λ s' _, (draws s ≤ draws s' ≤ draws s + remaining)%nat).
Proof.
  induction remaining as [|remaining IH]; intros current climb role_counts s.
  { unfold post. simpl. lia. }
  cbn [generate_moves]. apply post_bind.
  destruct (read_transitions_spec difficulty current s) as (s1 & E1 & _ & Hd1).
  unfold post at 1. rewrite E1. cbn [fst snd].
  apply post_bind. eapply post_mono; [apply select_draws|].
  intros s2 [[h|]|e] Hd2; try (unfold post; simpl; lia).
  destruct (_is_valid_transition current h); cbn [negb]; [|unfold post; simpl; lia].
  destruct (may_finish _ _ _); [unfold post; simpl; lia|].
  eapply post_mono; [apply IH|]. intros s3 r Hd3. simpl in *. lia.
Qed.

Lemma second_start_hold_draws rnd difficulty start climb role_counts s :
  post (second_start_hold rnd difficulty start climb role_counts) s
       (λ s' _, (draws s ≤ draws s' ≤ draws s + 2)%nat).
Proof.
  unfold second_start_hold. apply post_bind. unfold post at 1, np_random. cbn [fst snd].
  destruct (negb _); [|unfold post; simpl; lia].
  apply post_bind.
  destruct (read_transitions_spec difficulty start {| model := model s; draws := S (draws s) |})
    as (s1 & E1 & _ & Hd1).
  unfold post at 1. rewrite E1. cbn [fst snd]. simpl in Hd1.
  apply post_bind. eapply post_mono; [apply select_draws|].
  intros s2 [[h|]|e] Hd2; try (unfold post; simpl; lia).
  destruct (hold_role h =? START_ROLE); unfold post; simpl; lia.
Qed.

Lemma attempts_draws rnd difficulty min_moves max_moves remaining :
  ∀ s, post (attempts rnd remaining difficulty min_moves max_moves) s
            (λ s' _, (draws s ≤ draws s'
                      ≤ draws s + remaining * (Z.to_nat (max_moves - 1) + 3))%nat).
Proof.
  induction remaining as [|remaining IH]; intros s.
  { unfold post. simpl. lia. }
  cbn [attempts]. apply post_bind.
  destruct (read_start_positions_spec difficulty s) as (s1 & E1 & _ & Hd1).
  unfold post at 1. rewrite E1. cbn [fst snd].
  apply post_bind. eapply post_mono; [apply select_draws|].
  intros s2 [[start|]|e] Hd2.
  - apply post_bind. eapply post_mono; [apply second_start_hold_draws|].
    intros s3 [[climb3 rc3]|e] Hd3; [|simpl; lia].
    apply post_bind. eapply post_mono; [apply generate_moves_draws|].
    intros s4 [[climb4 rc4]|e] Hd4; [|simpl; lia].
    destruct (is_complete _ _ _ _); [unfold post; simpl; lia|].
    eapply post_mono; [apply IH|]. intros s5 r Hd5. simpl in *. lia.
  - eapply post_mono; [apply IH|]. intros s5 r Hd5. simpl in *. lia.
  - simpl. lia.
Qed.

(** X18.  Bounded work.  A call of [generate_climb] consumes in each attempt at
    most three random draws (start hold, coin, second start hold) plus one
    per iteration of the move loop, so at most
    [max_attempts * ((max_moves - 1) + 3)] draws in all, and it never rewinds
    the random source. *)
Theorem X_generate_climb_draws_bounded
    (rnd : nat → Q) (difficulty : string) (min_moves max_moves max_attempts : Z)
    (s : Session) :
  let s' := state_after (generate_climb rnd difficulty min_moves max_moves max_attempts) s in
  (draws s ≤ draws s'
   ≤ draws s + Z.to_nat max_attempts * (Z.to_nat (max_moves - 1) + 3))%nat.
Proof.
  cbv zeta. unfold state_after, generate_climb, bind, get. cbn [fst snd].
  case_decide; [|simpl; lia].
  apply (attempts_draws rnd difficulty min_moves max_moves (Z.to_nat max_attempts) s).
Qed.

(** ** Generation reads the model only through its distributions *)

Lemma reads_equal_refl g : reads_equal g g.
Proof. by split. Qed.

Lemma reads_equal_same_reads g1 g1' g2 g2' :
  reads_equal g1 g2 → same_reads g1 g1' → same_reads g2 g2' → reads_equal g1' g2'.
Proof.
  intros (Hd & Hs & Ht) [Hd1 Hs1 Ht1 _ _] [Hd2 Hs2 Ht2 _ _]. split; [congruence|]. split.
  - intros d. by rewrite Hs1, Hs2.
  - intros d k. by rewrite Ht1, Ht2.
Qed.

Lemma agree_on_ret {A} (a : A) s s' : sessions_agree s s' → agree_on (ret a) s s'.
Proof. by split. Qed.

Lemma agree_on_bind {A B} (c : M Session A) (k : A → M Session B) s s' :
  agree_on c s s' →
  (∀ a s1 s1', sessions_agree s1 s1' → agree_on (k a) s1 s1') →
  agree_on (bind c k) s s'.
Proof.
  unfold agree_on, bind. intros [Hs Hr] Hk.
  destruct (c s) as [s1 r1], (c s') as [s1' r1']. simpl in *. subst r1'.
  destruct r1 as [a|e]; [by apply Hk|done].
Qed.

Lemma agree_on_np_random rnd s s' : sessions_agree s s' → agree_on (np_random rnd) s s'.
Proof. intros [Hm Hd]. unfold agree_on, np_random, sessions_agree. simpl. by rewrite Hd. Qed.

Lemma agree_on_read_start_positions difficulty s s' :
  sessions_agree s s' → agree_on (read_start_positions difficulty) s s'.
Proof.
  intros [Hm Hd]. unfold agree_on.
  destruct (read_start_positions_spec difficulty s) as (s1 & -> & Hs1 & Hd1).
  destruct (read_start_positions_spec difficulty s') as (s1' & -> & Hs1' & Hd1').
  simpl. split; [split; [by eapply reads_equal_same_reads|congruence]|].
  destruct Hm as (_ & Hs & _). by rewrite Hs.
Qed.

Lemma agree_on_read_transitions difficulty current s s' :
  sessions_agree s s' → agree_on (read_transitions difficulty current) s s'.
Proof.
  intros [Hm Hd]. unfold agree_on.
  destruct (read_transitions_spec difficulty current s) as (s1 & -> & Hs1 & Hd1).
  destruct (read_transitions_spec difficulty current s') as (s1' & -> & Hs1' & Hd1').
  simpl. split; [split; [by eapply reads_equal_same_reads|congruence]|].
  destruct Hm as (_ & _ & Ht). by rewrite Ht.
Qed.

Lemma agree_on_select rnd distribution current_climb role_counts s s' :
  sessions_agree s s' →
  agree_on (_select_from_distribution rnd distribution current_climb role_counts) s s'.
Proof.
  intros Hs. unfold _select_from_distribution.
  destruct distribution as [|e0 dist0]; [by apply agree_on_ret|].
  destruct (last _) as [last_valid|]; [|by apply agree_on_ret].
  destruct (Qeq_bool _ 0); [by apply agree_on_ret|].
  apply agree_on_bind; [by apply agree_on_np_random|].
  intros u s1 s1' Hs1. destruct (roulette _ _ _); by apply agree_on_ret.
Qed.

Lemma agree_on_generate_moves rnd difficulty min_moves remaining :
  ∀ current climb role_counts s s',
    sessions_agree s s' →
    agree_on (generate_moves rnd remaining difficulty min_moves current climb role_counts) s s'.
Proof.
  induction remaining as [|remaining IH]; intros current climb role_counts s s' Hs.
  { by apply agree_on_ret. }
  cbn [generate_moves]. apply agree_on_bind; [by apply agree_on_read_transitions|].
  intros distribution s1 s1' Hs1. apply agree_on_bind; [by apply agree_on_select|].
  intros [h|] s2 s2' Hs2; [|by apply agree_on_ret].
  destruct (negb _); [by apply agree_on_ret|].
  destruct (may_finish _ _ _); [by apply agree_on_ret|]. by apply IH.
Qed.

Lemma agree_on_second_start_hold rnd difficulty start climb role_counts s s' :
  sessions_agree s s' →
  agree_on (second_start_hold rnd difficulty start climb role_counts) s s'.
Proof.
  intros Hs. unfold second_start_hold. apply agree_on_bind; [by apply agree_on_np_random|].
  intros u s1 s1' Hs1. destruct (negb _); [|by apply agree_on_ret].
  apply agree_on_bind; [by apply agree_on_read_transitions|].
  intros distribution s2 s2' Hs2. apply agree_on_bind; [by apply agree_on_select|].
  intros [h|] s3 s3' Hs3; [|by apply agree_on_ret].
  destruct (hold_role h =? START_ROLE); by apply agree_on_ret.
Qed.

Lemma agree_on_attempts rnd difficulty min_moves max_moves remaining :
  ∀ s s', sessions_agree s s' →
          agree_on (attempts rnd remaining difficulty min_moves max_moves) s s'.
Proof.
  induction remaining as [|remaining IH]; intros s s' Hs.
  { by apply agree_on_ret. }
  cbn [attempts]. apply agree_on_bind; [by apply agree_on_read_start_positions|].
  intros distribution s1 s1' Hs1. apply agree_on_bind; [by apply agree_on_select|].
  intros [start|] s2 s2' Hs2; [|by apply IH].
  apply agree_on_bind; [by apply agree_on_second_start_hold|].
  intros [climb3 rc3] s3 s3' Hs3.
  apply agree_on_bind; [by apply agree_on_generate_moves|].
  intros [climb4 rc4] s4 s4' Hs4.
  destruct (is_complete _ _ _ _); [by apply agree_on_ret|by apply IH].
Qed.

Lemma agree_on_generate_climb rnd difficulty min_moves max_moves max_attempts s s' :
  sessions_agree s s' →
  agree_on (generate_climb rnd difficulty min_moves max_moves max_attempts) s s'.
Proof.
  intros Hs. unfold generate_climb, agree_on, bind, get. cbn [fst snd].
  destruct Hs as [(Hd & Hm) Hdraws]. rewrite Hd.
  case_decide; [|done]. apply agree_on_attempts. by split; [split|].
Qed.

(** X19.  The outcome of [generate_climb] depends on the model only through what
    its reads return, and on the position in the random stream: from two
    sessions that agree on both, the call has the same outcome and leaves
    sessions that still agree. *)
Theorem X_generation_depends_only_on_reads
    (rnd : nat → Q) (difficulty : string) (min_moves max_moves max_attempts : Z)
    (s s' : Session) :
  sessions_agree s s' →
  outcome_of (generate_climb rnd difficulty min_moves max_moves max_attempts) s
  = outcome_of (generate_climb rnd difficulty min_moves max_moves max_attempts) s'
  ∧ sessions_agree (state_after (generate_climb rnd difficulty min_moves max_moves max_attempts) s)
                   (state_after (generate_climb rnd difficulty min_moves max_moves max_attempts) s').
Proof.
  intros Hs.
  destruct (agree_on_generate_climb rnd difficulty min_moves max_moves max_attempts s s' Hs).
  by split.
Qed.

Lemma X_generation_depends_only_on_reads_witness :
  let s := mkSession (trained two_starts_corpus) 0 in
  let s' := mkSession (model (state_after (read_transitions V0 hB) s)) 0 in
  outcome_of (generate_climb rnd_zero V0 3 20 100) s
  = outcome_of (generate_climb rnd_zero V0 3 20 100) s'
  ∧ sessions_agree (state_after (generate_climb rnd_zero V0 3 20 100) s)
                   (state_after (generate_climb rnd_zero V0 3 20 100) s').
Proof.
  intros s s'. apply (X_generation_depends_only_on_reads rnd_zero V0 3 20 100 s s').
  split; [|reflexivity].
  destruct (read_transitions_spec V0 hB s) as (s1 & E & [Hd Hs Ht _ _] & _).
  unfold s', state_after. rewrite E. simpl. by split; [|split].
Defined.

(** X20.  Repeated calls.  The keys that the reads of one call add to the tables
    never change a later call: called after an earlier [generate_climb], a
    call has the outcome it would have on the model as it was before the
    earlier call, at the same position in the random stream. *)
Theorem X_earlier_call_does_not_change_later
    (rnd : nat → Q) (difficulty1 difficulty2 : string)
    (min1 max1 attempts1 min2 max2 attempts2 : Z) (s : Session) :
  let s1 := state_after (generate_climb rnd difficulty1 min1 max1 attempts1) s in
  outcome_of (generate_climb rnd difficulty2 min2 max2 attempts2) s1
  = outcome_of (generate_climb rnd difficulty2 min2 max2 attempts2)
               {| model := model s; draws := draws s1 |}.
Proof.
  intros s1.
  apply (agree_on_generate_climb rnd difficulty2 min2 max2 attempts2).
  split; [|done]. simpl.
  pose proof (generate_climb_spec rnd difficulty1 min1 max1 attempts1 s) as [[Hd Hs Ht _ _] _].
  by split; [|split].
Qed.

(** ** From a route to SVG points ([src/generate.py]) *)

Lemma ROLE_TO_COLOR_is_Some role :
  is_Some (ROLE_TO_COLOR !! role) ↔ 5 ≤ role ≤ 8.
Proof.
  unfold ROLE_TO_COLOR. rewrite !lookup_insert, lookup_singleton.
  repeat case_decide; split; intros Hr; try lia; try done; try by eexists.
  all: by destruct Hr.
Qed.

Lemma svg_points_inr moves points :
  svg_points moves = inr points → Forall2 point_of moves points.
Proof.
  revert points. induction moves as [|move rest IH]; intros points; simpl.
  - intros [= <-]. constructor.
  - destruct (ROLE_TO_COLOR !! hold_role move) as [color|] eqn:Ec; [|done].
    destruct (svg_points rest) as [e|ps]; [done|]. intros [= <-].
    constructor; [done|by apply IH].
Qed.

Lemma svg_points_inl moves e :
  svg_points moves = inl e →
  ∃ h, h ∈ moves ∧ ¬ 5 ≤ hold_role h ≤ 8 ∧ e = RoleKeyError (hold_role h).
Proof.
  induction moves as [|move rest IH]; simpl; [done|].
  destruct (ROLE_TO_COLOR !! hold_role move) as [color|] eqn:Ec.
  - destruct (svg_points rest) as [e'|ps]; [|done]. intros [= <-].
    destruct (IH eq_refl) as (h & Hin & Hr & He). exists h. split; [by right|done].
  - intros [= <-]. exists move. split; [left|]. split; [|done].
    intros Hr. apply ROLE_TO_COLOR_is_Some in Hr as [c Hc]. congruence.
Qed.

Lemma svg_points_known_roles moves :
  Forall (λ h, 5 ≤ hold_role h ≤ 8) moves → ∃ points, svg_points moves = inr points.
Proof.
  induction 1 as [|move rest Hr _ [ps IH]]; simpl; [by eexists|].
  apply ROLE_TO_COLOR_is_Some in Hr as [c ->]. rewrite IH. by eexists.
Qed.

(** X21.  The conversion of a route to SVG points succeeds exactly when every role
    of the route is one of 5, 6, 7, 8; it then yields one point per hold, in
    order, with the hold's coordinates and the colour of its role.
    Otherwise it raises the [KeyError] of a role outside 5..8. *)
Theorem X_svg_points_of_route (moves : list Hold) :
  ((∃ points, svg_points moves = inr points) ↔ Forall (λ h, 5 ≤ hold_role h ≤ 8) moves)
  ∧ (∀ points, svg_points moves = inr points → Forall2 point_of moves points)
  ∧ (∀ e, svg_points moves = inl e →
          ∃ h, h ∈ moves ∧ ¬ 5 ≤ hold_role h ≤ 8 ∧ e = RoleKeyError (hold_role h)).
Proof.
  split; [|split; [apply svg_points_inr|apply svg_points_inl]].
  split; [|apply svg_points_known_roles].
  intros [points Hp]. apply svg_points_inr in Hp.
  induction Hp as [|h p rest ps (_ & _ & Hc) _ IH]; constructor; [|done].
  apply ROLE_TO_COLOR_is_Some. by eexists.
Qed.

(** X22.  How a request through [IntegratedClimbGenerator] ends before rendering.
    An unregistered difficulty gives the wrapped configuration error; when
    the core generator runs out of attempts and returns [None], iterating
    over the result raises [TypeError]; a returned route with a role outside
    5..8 raises [KeyError]; otherwise the route, of 8 to 20 holds, comes with
    one point per hold. *)
Theorem X_integrated_request_outcomes (rnd : nat → Q) (difficulty : string) (s : Session) :
  let core := outcome_of (generate_climb rnd difficulty 8 20 100) s in
  match (integrated_svg_points rnd difficulty s).2 with
  | inl (ErrorGeneratingClimb e) =>
      e = ValueError ∧ difficulty ∉ difficulties (model s)
  | inl TypeError =>
      core = Returned None ∧ difficulty ∈ difficulties (model s)
  | inl (RoleKeyError role) =>
      ¬ 5 ≤ role ≤ 8 ∧ ∃ moves h, core = Returned (Some moves) ∧ h ∈ moves ∧ hold_role h = role
  | inr (moves, points) =>
      core = Returned (Some moves) ∧ complete_route 8 20 moves
      ∧ Forall2 point_of moves points
  end.
Proof.
  cbv zeta. unfold integrated_svg_points, outcome_of.
  pose proof (generate_climb_spec rnd difficulty 8 20 100 s) as [_ H]. unfold post in H.
  destruct (generate_climb rnd difficulty 8 20 100 s) as [s' [[moves|]|e]]; simpl in *.
  - case_decide; [|by destruct H]. destruct H as (o & [= <-] & Hc).
    destruct (Hc moves eq_refl) as [Hcomplete _].
    destruct (svg_points moves) as [e|points] eqn:Ep; simpl.
    + destruct (svg_points_inl _ _ Ep) as (h & Hin & Hr & ->). split; [done|].
      by exists moves, h.
    + split; [done|]. split; [done|]. by apply svg_points_inr.
  - case_decide; [done|]. by destruct H.
  - case_decide; [by destruct H as (o & ? & _)|]. destruct H as [_ [= ->]]. done.
Qed.

(** ** The coordinate grid of [ClimbingConstraints] ([src/pattern_recognition.py]) *)

Lemma elem_of_py_range start stop step x :
  0 < step →
  x ∈ ClimbingConstraints.py_range start stop step
  ↔ start ≤ x < stop ∧ (x - start) mod step = 0.
Proof.
  intros Hstep. unfold ClimbingConstraints.py_range. rewrite list_elem_of_fmap. split.
  - intros (i & -> & Hi). apply elem_of_seq in Hi as [_ Hi]. simpl in Hi.
    assert (Hn : Z.of_nat i < (stop - start + step - 1) / step) by lia.
    pose proof (Z.mul_div_le (stop - start + step - 1) step Hstep).
    split; [nia|].
    replace (start + step * Z.of_nat i - start) with (Z.of_nat i * step) by ring.
    apply Z_mod_mult.
  - intros [[Hlo Hhi] Hmod].
    pose proof (Z_div_mod_eq_full (x - start) step) as Hx. rewrite Hmod, Z.add_0_r in Hx.
    assert (Hq : 0 ≤ (x - start) / step) by (apply Z.div_pos; lia).
    exists (Z.to_nat ((x - start) / step)). split; [lia|].
    apply elem_of_seq. split; [lia|]. simpl.
    assert ((x - start) / step < (stop - start + step - 1) / step); [|lia].
    replace (stop - start + step - 1) with ((stop - start - 1) + 1 * step) by ring.
    rewrite Z.div_add by lia.
    pose proof (Z.div_le_mono (x - start) (stop - start - 1) step Hstep). lia.
Qed.

Lemma get_valid_y_coordinates_spec v :
  v ∈ ClimbingConstraints.get_valid_y_coordinates ↔ ClimbingConstraints.valid_y v = true.
Proof.
  unfold ClimbingConstraints.get_valid_y_coordinates, ClimbingConstraints.valid_y.
  cbv zeta. change (negb _) with false. cbv iota.
  rewrite elem_of_py_range by done.
  rewrite !andb_true_iff, Z.eqb_eq, !Z.leb_le.
  unfold ClimbingConstraints.MIN_Y, ClimbingConstraints.MAX_Y,
    ClimbingConstraints.GRID_SIZE, ClimbingConstraints.Y_OFFSET.
  split; intros [H1 H2]; split; Z.div_mod_to_equations; lia.
Qed.

Lemma get_valid_x_coordinates_spec v :
  v ∈ ClimbingConstraints.get_valid_x_coordinates ↔ ClimbingConstraints.valid_x v = true.
Proof.
  unfold ClimbingConstraints.get_valid_x_coordinates, ClimbingConstraints.valid_x.
  rewrite elem_of_py_range by done.
  rewrite !andb_true_iff, Z.eqb_eq, !Z.leb_le.
  unfold ClimbingConstraints.MIN_X, ClimbingConstraints.MAX_X, ClimbingConstraints.GRID_SIZE.
  split; intros [H1 H2]; split; Z.div_mod_to_equations; lia.
Qed.

Lemma get_valid_r5_y_coordinates_spec v :
  v ∈ ClimbingConstraints.get_valid_r5_y_coordinates
  ↔ ClimbingConstraints.valid_r5_y v = true.
Proof.
  unfold ClimbingConstraints.get_valid_r5_y_coordinates, ClimbingConstraints.valid_r5_y.
  rewrite list_elem_of_filter, get_valid_y_coordinates_spec, !andb_true_iff, !Z.leb_le. tauto.
Qed.

(** X23.  The enumerations agree with the validity tests: the x coordinates listed
    are exactly those accepted by [valid_x], the y coordinates exactly those
    accepted by [valid_y], and the y coordinates for START holds exactly
    those accepted by [valid_r5_y]. *)
Theorem X_valid_coordinates_enumerated (v : Z) :
  (v ∈ ClimbingConstraints.get_valid_x_coordinates ↔ ClimbingConstraints.valid_x v = true)
  ∧ (v ∈ ClimbingConstraints.get_valid_y_coordinates ↔ ClimbingConstraints.valid_y v = true)
  ∧ (v ∈ ClimbingConstraints.get_valid_r5_y_coordinates
     ↔ ClimbingConstraints.valid_r5_y v = true).
Proof.
  split; [apply get_valid_x_coordinates_spec|].
  split; [apply get_valid_y_coordinates_spec|apply get_valid_r5_y_coordinates_spec].
Qed.

(** X24.  Nearby coordinates.  [get_nearby_coordinates] lists exactly the grid
    positions that are at most 32 units away from [(x, y)] in each direction
    and not yet used, the height being restricted to the START band when the
    role asked for is 5. *)
Theorem X_nearby_coordinates_exact
    (x y : Z) (used_coords : gset (Z * Z)) (for_role : option Z) (new_x new_y : Z) :
  (new_x, new_y) ∈ ClimbingConstraints.get_nearby_coordinates x y used_coords for_role
  ↔ ClimbingConstraints.valid_x new_x = true
    ∧ (if decide (for_role = Some 5) then ClimbingConstraints.valid_r5_y new_y = true
       else ClimbingConstraints.valid_y new_y = true)
    ∧ Z.abs (new_x - x) ≤ 32 ∧ Z.abs (new_y - y) ≤ 32
    ∧ (new_x, new_y) ∉ used_coords.
Proof.
  unfold ClimbingConstraints.get_nearby_coordinates. cbv zeta.
  set (valid_y := if decide (for_role = Some 5)
                  then ClimbingConstraints.get_valid_r5_y_coordinates
                  else ClimbingConstraints.get_valid_y_coordinates).
  assert (Hvalid_y : new_y ∈ valid_y
                     ↔ if decide (for_role = Some 5)
                       then ClimbingConstraints.valid_r5_y new_y = true
                       else ClimbingConstraints.valid_y new_y = true).
  { unfold valid_y. case_decide;
      [apply get_valid_r5_y_coordinates_spec|apply get_valid_y_coordinates_spec]. }
  rewrite <- Hvalid_y, <- get_valid_x_coordinates_spec. clearbody valid_y. clear Hvalid_y.
  rewrite list_elem_of_bind. unfold ClimbingConstraints.nearby_in_column,
    ClimbingConstraints.MAX_ROLE57_SPACING, ClimbingConstraints.MAX_ROLE57_Y_DIFF.
  split.
  - intros (cx & Hin & Hcx).
    destruct (32 <? Z.abs (cx - x)) eqn:Ex; [by apply elem_of_nil in Hin|].
    apply Z.ltb_ge in Ex. apply list_elem_of_omap in Hin as (cy & Hcy & Hsome).
    destruct (32 <? Z.abs (cy - y)) eqn:Ey; [done|]. apply Z.ltb_ge in Ey.
    case_decide as Hused; [|done]. injection Hsome as -> ->. done.
  - intros (Hx & Hy & Hdx & Hdy & Hused). exists new_x. split; [|done].
    apply Z.ltb_ge in Hdx as ->. apply list_elem_of_omap. exists new_y. split; [done|].
    apply Z.ltb_ge in Hdy as ->. by rewrite decide_True.
Qed.
